(** * Queue-mediated generator pipelines

A shallow embedding of [genqueue.py], [genmultiplex.py] and
[consthread.py]: the hand-off queue, the pump [sendto_queue], the
generator [genfrom_queue], the fan-in [multiplex] and the consumer
thread with its [send]. *)

From stdpp Require Import base list gmap strings.

(** ** genqueue.py *)

Module GenQueue.

Section Objects.
(** [T] stands for the Python values that are not the [StopIteration]
    class object, [E] for the exceptions an upstream iterator may raise. *)
Context {T E : Type}.

(** A value that can sit in a queue: the class object [StopIteration]
    itself, which the code uses as its end marker, or any other value. *)
Inductive pyobj : Type :=
| StopIteration
| Obj (x : T).

(** [item is StopIteration] *)
Definition is_StopIteration (item : pyobj) : bool :=
  match item with
  | StopIteration => true
  | Obj _ => false
  end.

(** The values of a list of queue entries that are not the marker. *)
Definition items (l : list pyobj) : list T :=
  omap (fun item => match item with StopIteration => None | Obj x => Some x end) l.

(** A single-pass finite iterator, by what each [next] on it does: it
    yields an item and goes on, it is exhausted, or it raises. *)
Inductive upstream : Type :=
| Stop
| Raise (err : E)
| Yield (item : pyobj) (rest : upstream).

(** [iter(l)] for a list [l]. *)
Fixpoint of_list (l : list pyobj) : upstream :=
  match l with
  | [] => Stop
  | item :: l' => Yield item (of_list l')
  end.

(** An iterator that yields [l] and then raises [err]. *)
Fixpoint failing (l : list pyobj) (err : E) : upstream :=
  match l with
  | [] => Raise err
  | item :: l' => Yield item (failing l' err)
  end.

(** [Queue.Queue()]: an unbounded FIFO.  [put] appends at the tail;
    [get] takes the head, and [None] stands for a call that blocks on
    the empty queue. *)
Definition put (item : pyobj) (thequeue : list pyobj) : list pyobj :=
  thequeue ++ [item].

Definition get (thequeue : list pyobj) : option (pyobj * list pyobj) :=
  match thequeue with
  | [] => None
  | item :: q' => Some (item, q')
  end.

(** How a call ends. *)
Inductive outcome : Type :=
| Returned
| Raised (err : E).

(** [sendto_queue(source, thequeue)]: the [for] loop puts every item;
    the marker is put by the statement after the loop, which an
    exception leaving the loop never reaches. *)
Fixpoint sendto_queue (source : upstream) (thequeue : list pyobj)
  : list pyobj * outcome :=
  match source with
  | Yield item rest => sendto_queue rest (put item thequeue)
  | Stop => (put StopIteration thequeue, Returned)
  | Raise err => (thequeue, Raised err)
  end.

(** How iterating [source] to its end comes out. *)
Fixpoint ending (source : upstream) : outcome :=
  match source with
  | Yield _ rest => ending rest
  | Stop => Returned
  | Raise err => Raised err
  end.

(** The entries a pump over [source] still has to put. *)
Fixpoint puts (source : upstream) : list pyobj :=
  match source with
  | Yield item rest => item :: puts rest
  | Stop => [StopIteration]
  | Raise _ => []
  end.

(** A generator object is running or has finished; a finished one
    answers every [next] with end-of-sequence and runs no code. *)
Inductive gen_state : Type :=
| Running
| Finished.

(** What one [next] on a generator gives its caller. *)
Inductive pulled : Type :=
| Yielded (item : pyobj)
| Ended
| Blocks.

(** One [next] on [genfrom_queue(thequeue)]: one turn of the
    [while True] loop. *)
Definition genfrom_queue_next (g : gen_state) (thequeue : list pyobj)
  : pulled * gen_state * list pyobj :=
  match g with
  | Finished => (Ended, Finished, thequeue)
  | Running =>
      match get thequeue with
      | None => (Blocks, Running, thequeue)
      | Some (item, q') =>
          if is_StopIteration item
          then (Ended, Finished, q')
          else (Yielded item, Running, q')
      end
  end.

(** [n] successive [next] calls; a call that blocks does not return, so
    nothing follows it. *)
Fixpoint pull_n (n : nat) (g : gen_state) (thequeue : list pyobj)
  : list pulled * gen_state * list pyobj :=
  match n with
  | 0 => ([], g, thequeue)
  | S n' =>
      match genfrom_queue_next g thequeue with
      | (Blocks, g', q') => ([Blocks], g', q')
      | (r, g', q') =>
          let '(rs, g'', q'') := pull_n n' g' q' in (r :: rs, g'', q'')
      end
  end.

(** The whole run of [genfrom_queue(thequeue)] over the entries at hand:
    the items yielded, and [Some rest] when the loop broke on the marker
    leaving [rest] in the queue, [None] when it is left waiting in [get]
    on the empty queue. *)
Fixpoint genfrom_queue (thequeue : list pyobj)
  : list pyobj * option (list pyobj) :=
  match thequeue with
  | [] => ([], None)
  | item :: q' =>
      if is_StopIteration item
      then ([], Some q')
      else let '(ys, r) := genfrom_queue q' in (item :: ys, r)
  end.

End Objects.

Arguments pyobj : clear implicits.
Arguments upstream : clear implicits.
Arguments outcome : clear implicits.
Arguments pulled : clear implicits.

End GenQueue.

(** ** gencat.py *)

Module GenCat.
Import GenQueue.

(** Position of the first generator of [gs] that has not finished. *)
Fixpoint first_running (gs : list gen_state) : option nat :=
  match gs with
  | [] => None
  | Running :: _ => Some 0
  | Finished :: gs' => S <$> first_running gs'
  end.

(** Modelled from the spec: [gen_cat], whose file [gencat.py] is not
    among the sources.  The merged sequence pulls adapter 0, then 1, up
    to N-1, then 0 again, skipping every adapter that has ended, and
    ends when all have ended.  [gen_cat cursor gs] is the adapter pulled
    next when the cycle stands at [cursor]: the first running one from
    [cursor] on, else the first running one before it; [None] when the
    merged sequence has ended. *)
Definition gen_cat (cursor : nat) (gs : list gen_state) : option nat :=
  match first_running (drop cursor gs) with
  | Some k => Some (cursor + k)
  | None => first_running (take cursor gs)
  end.

(** The other way to chain generators: each one is drained to its end
    before the next is touched. *)
Definition chained (cursor : nat) (gs : list gen_state) : option nat :=
  first_running gs.

(** What the rest of the development needs of a merge order: it names a
    running adapter as long as there is one. *)
Definition sound (pick : nat -> list gen_state -> option nat) : Prop :=
  forall cursor gs,
    match pick cursor gs with
    | Some j => gs !! j = Some Running
    | None => Forall (fun g => g = Finished) gs
    end.

End GenCat.

(** ** genmultiplex.py *)

Module GenMultiplex.
Import GenQueue.

Section Threads.
Context {T E : Type}.

(** A [threading.Thread] whose target is [sendto_queue]: still in the
    loop over what is left of its source, or gone. *)
Inductive thread : Type :=
| Alive (source : upstream T E)
| Exited (how : outcome E).

(** One turn of the thread's [sendto_queue]: the queue afterwards and
    the thread afterwards. *)
Definition sendto_queue_step (source : upstream T E) (thequeue : list (pyobj T))
  : list (pyobj T) * thread :=
  match source with
  | Yield item rest => (put item thequeue, Alive rest)
  | Stop => (put StopIteration thequeue, Exited Returned)
  | Raise err => (thequeue, Exited (Raised err))
  end.

(** What a thread has yet to put. *)
Definition pending (t : thread) : list (pyobj T) :=
  match t with
  | Alive source => puts source
  | Exited _ => []
  end.

Definition exited (t : thread) : bool :=
  match t with
  | Alive _ => false
  | Exited _ => true
  end.

Definition finished (g : gen_state) : bool :=
  match g with
  | Running => false
  | Finished => true
  end.

(** The objects [multiplex] creates: the one queue [in_q], which every
    thread puts into and every generator of [consumers] gets from, the
    threads, the generators, and where the merged sequence stands. *)
Record world : Type := World {
  in_q : list (pyobj T);
  threads : list thread;
  consumers : list gen_state;
  cursor : nat
}.

(** The [for s in sources] loop: one thread and one generator per
    source, all over [in_q]. *)
Fixpoint multiplex_loop (sources : list (upstream T E))
    (thrs : list thread) (consumers : list gen_state)
  : list thread * list gen_state :=
  match sources with
  | [] => (thrs, consumers)
  | s :: sources' => multiplex_loop sources' (thrs ++ [Alive s]) (consumers ++ [Running])
  end.

Definition multiplex (sources : list (upstream T E)) : world :=
  let '(thrs, consumers) := multiplex_loop sources [] [] in
  {| in_q := []; threads := thrs; consumers := consumers; cursor := 0 |}.

(** Who moves: thread [i] runs one turn of its loop, or the merged
    sequence pulls one of its generators. *)
Inductive action : Type :=
| Thread (i : nat)
| Next.

(** What a move does to the queue and to the merged sequence. *)
Inductive event : Type :=
| Put (i : nat) (item : pyobj T)
| Crash (i : nat) (err : E)
| Pulled (j : nat) (r : pulled T).

Definition thread_event (i : nat) (source : upstream T E) : event :=
  match source with
  | Yield item _ => Put i item
  | Stop => Put i StopIteration
  | Raise err => Crash i err
  end.

Section Merge.
(** The order in which the merged sequence pulls its generators. *)
Variable pick : nat -> list gen_state -> option nat.

(** A move is [None] when it cannot happen: the thread is gone, the
    merged sequence has ended, or its [get] finds the queue empty and
    waits. *)
Definition step (a : action) (w : world) : option (event * world) :=
  match a with
  | Thread i =>
      match threads w !! i with
      | Some (Alive source) =>
          let '(q', t') := sendto_queue_step source (in_q w) in
          Some (thread_event i source,
                {| in_q := q'; threads := <[i := t']> (threads w);
                   consumers := consumers w; cursor := cursor w |})
      | _ => None
      end
  | Next =>
      match pick (cursor w) (consumers w) with
      | None => None
      | Some j =>
          match consumers w !! j with
          | None => None
          | Some g =>
              match genfrom_queue_next g (in_q w) with
              | (Blocks, _, _) => None
              | (r, g', q') =>
                  Some (Pulled j r,
                        {| in_q := q'; threads := threads w;
                           consumers := <[j := g']> (consumers w);
                           cursor := S j |})
              end
          end
      end
  end.

Fixpoint run (sched : list action) (w : world) : option (list event * world) :=
  match sched with
  | [] => Some ([], w)
  | a :: sched' =>
      match step a w with
      | None => None
      | Some (ev, w') =>
          match run sched' w' with
          | None => None
          | Some (tr, w'') => Some (ev :: tr, w'')
          end
      end
  end.

(** Where the caller of the merged sequence stands: it has been told
    the end, it waits in a [get], or an entry is there for it. *)
Definition merged_next (w : world) : pulled T :=
  match pick (cursor w) (consumers w) with
  | None => Ended
  | Some j =>
      match consumers w !! j with
      | None => Ended
      | Some g => (genfrom_queue_next g (in_q w)).1.1
      end
  end.

End Merge.

(** Every thread is gone and every generator has finished. *)
Definition final (w : world) : bool :=
  forallb exited (threads w) && forallb finished (consumers w).

(** The entries put into [in_q], each with the thread that put it. *)
Definition enqueued (tr : list event) : list (nat * pyobj T) :=
  omap (fun ev => match ev with Put i item => Some (i, item) | _ => None end) tr.

(** The entries put by thread [i]. *)
Definition sent_by (i : nat) (tr : list event) : list (pyobj T) :=
  (filter (fun p => p.1 = i) (enqueued tr)).*2.

(** The entries the generators took out of [in_q]. *)
Definition dequeued (tr : list event) : list (pyobj T) :=
  omap (fun ev => match ev with
                  | Pulled _ (Yielded item) => Some item
                  | Pulled _ Ended => Some StopIteration
                  | _ => None
                  end) tr.

(** What the merged sequence yields. *)
Definition yields (tr : list event) : list (pyobj T) :=
  omap (fun ev => match ev with Pulled _ (Yielded item) => Some item | _ => None end) tr.

(** The items among the entries put, each with the thread it comes from. *)
Definition provenance (tr : list event) : list (nat * T) :=
  omap (fun p => match p.2 with Obj x => Some (p.1, x) | StopIteration => None end)
       (enqueued tr).

(** The items that come from thread [i], in the order of [l]. *)
Definition from (i : nat) (l : list (nat * T)) : list T :=
  (filter (fun p => p.1 = i) l).*2.

End Threads.

Arguments thread : clear implicits.
Arguments world : clear implicits.
Arguments event : clear implicits.

End GenMultiplex.

(** ** consthread.py *)

Module ConsThread.
Import GenQueue.

Section Sinks.
Context {T : Type}.

(** [ConsumerThread]: its own queue [in_q]; the [target] it runs is fed
    [genfrom_queue(self.in_q)]. *)
Record ConsumerThread : Type := { in_q : list (pyobj T) }.

(** [__init__]: a new, empty queue. *)
Definition init : ConsumerThread := {| in_q := [] |}.

(** [send(self, item)] *)
Definition send (self : ConsumerThread) (item : pyobj T) : ConsumerThread :=
  {| in_q := put item (in_q self) |}.

(** [run(self)]: what [target] is handed, as the run of the generator
    over the entries sent. *)
Definition run (self : ConsumerThread) : list (pyobj T) * option (list (pyobj T)) :=
  genfrom_queue (in_q self).

(** [send] to each sink in list order; the log names the sink of each
    call, sinks being numbered from [k]. *)
Fixpoint send_each (item : pyobj T) (sinks : list ConsumerThread) (k : nat)
  : list ConsumerThread * list (nat * pyobj T) :=
  match sinks with
  | [] => ([], [])
  | c :: sinks' =>
      let '(rest, log) := send_each item sinks' (S k) in
      (send c item :: rest, (k, item) :: log)
  end.

(** Modelled from the spec: [broadcast], whose file [broadcast.py] is not
    among the sources.  It pulls one element at a time from the source,
    sends it to every sink in sink-list order before pulling the next,
    and on exhaustion sends the marker to every sink once. *)
Fixpoint broadcast (source : list (pyobj T)) (sinks : list ConsumerThread)
  : list ConsumerThread * list (nat * pyobj T) :=
  match source with
  | [] => send_each StopIteration sinks 0
  | item :: source' =>
      let '(sinks1, log1) := send_each item sinks 0 in
      let '(sinks2, log2) := broadcast source' sinks1 in
      (sinks2, log1 ++ log2)
  end.

End Sinks.

Arguments ConsumerThread : clear implicits.

End ConsThread.

(** ** Bookkeeping for the proofs about [multiplex] *)

Module Accounting.
Import GenQueue GenMultiplex.

Section Accounting.
Context {T E : Type}.

Definition marker (item : pyobj T) : nat :=
  if is_StopIteration item then 1 else 0.

(** How many entries of [l] are the marker. *)
Definition markers (l : list (pyobj T)) : nat := sum_list_with marker l.

(** How many generators have not finished. *)
Definition running (gs : list gen_state) : nat :=
  sum_list_with (fun g => if finished g then 0 else 1) gs.

(** The markers in the queue and the markers still to be put are as
    many as the generators still running. *)
Definition balanced (w : world T E) : Prop :=
  markers (in_q w) + sum_list_with (fun t => markers (pending t)) (threads w)
  = running (consumers w).

Definition well_ended (t : thread T E) : Prop :=
  pending t = [] \/ last (pending t) = Some StopIteration.

(** The last entry ever put is a marker. *)
Definition closing (w : world T E) : Prop :=
  Forall well_ended (threads w) /\
  (Forall (fun t => pending t = []) (threads w) ->
   in_q w = [] \/ last (in_q w) = Some StopIteration).

Definition weight (t : thread T E) : nat :=
  2 * length (pending t) + (if exited t then 0 else 1).

(** A bound on the moves left. *)
Definition fuel (w : world T E) : nat :=
  sum_list_with weight (threads w) + length (in_q w).

(** What thread [i] has yet to put; nothing when there is no such
    thread. *)
Definition pend (i : nat) (w : world T E) : list (pyobj T) :=
  from_option pending [] (threads w !! i).

(** The moves of [step], told by what they do and whichever generator
    the merged sequence picks: a thread puts an entry, a thread dies of
    its source's exception, a running generator takes an item out and
    yields it, a running generator takes the marker out and finishes. *)
Inductive moved : world T E -> event T E -> world T E -> Prop :=
| moved_put w i t item t' :
    threads w !! i = Some t -> exited t = false ->
    pending t = item :: pending t' ->
    moved w (Put i item)
          {| in_q := in_q w ++ [item]; threads := <[i := t']> (threads w);
             consumers := consumers w; cursor := cursor w |}
| moved_crash w i t err :
    threads w !! i = Some t -> exited t = false -> pending t = [] ->
    moved w (Crash i err)
          {| in_q := in_q w; threads := <[i := Exited (Raised err)]> (threads w);
             consumers := consumers w; cursor := cursor w |}
| moved_yield w j x q c :
    in_q w = Obj x :: q -> consumers w !! j = Some Running ->
    moved w (Pulled j (Yielded (Obj x)))
          {| in_q := q; threads := threads w;
             consumers := consumers w; cursor := c |}
| moved_end w j q c :
    in_q w = StopIteration :: q -> consumers w !! j = Some Running ->
    moved w (Pulled j Ended)
          {| in_q := q; threads := threads w;
             consumers := <[j := Finished]> (consumers w); cursor := c |}.

(** A run, with the events in order. *)
Inductive moves : world T E -> list (event T E) -> world T E -> Prop :=
| moves_nil w : moves w [] w
| moves_cons w ev w1 tr w2 :
    moved w ev w1 -> moves w1 tr w2 -> moves w (ev :: tr) w2.

End Accounting.
End Accounting.

(** ** The consumers in the examples of genqueue.py and consthread.py *)

Module Examples.
Import GenQueue.

Local Open Scope string_scope.

(** What a field of a log record holds: an integer or a string. *)
Inductive value : Type :=
| VInt (z : Z)
| VStr (s : string).

(** The exceptions the consumers can run into. *)
Inductive exn : Type :=
| KeyError (key : string)
| TypeError.

(** [item[key]] on an entry taken from the queue: a record is a dict from
    field names to values; the class object [StopIteration] cannot be
    subscripted. *)
Definition getitem (item : pyobj (gmap string value)) (key : string) : value + exn :=
  match item with
  | StopIteration => inr TypeError
  | Obj r =>
      match r !! key with
      | Some v => inl v
      | None => inr (KeyError key)
      end
  end.

(** [v == n] for an integer literal [n]. *)
Definition eq_int (v : value) (n : Z) : bool :=
  match v with
  | VInt z => (z =? n)%Z
  | VStr _ => false
  end.

(** How a consumer over a generator stops: its loop ends with the
    generator, it waits in the generator's [get], or it raises. *)
Inductive stopped : Type :=
| Done
| Waiting
| Failed (e : exn).

(** A [for] loop with body [body] over the generator whose run is [log]:
    the lines printed, and how the loop stops. *)
Definition for_loop
    (body : list (pyobj (gmap string value)) -> list (list value) * outcome exn)
    (log : list (pyobj (gmap string value)) * option (list (pyobj (gmap string value))))
  : list (list value) * stopped :=
  let '(out, how) := body log.1 in
  (out,
   match how with
   | Raised e => Failed e
   | Returned => match log.2 with Some _ => Done | None => Waiting end
   end).

(** The loop of [print_r404] over the records its generator yields: the
    generator expression keeps the records whose status is 404, the body
    prints host, datetime and request.  A printed line is the list of the
    values printed. *)
Fixpoint print_r404_records (log : list (pyobj (gmap string value)))
  : list (list value) * outcome exn :=
  match log with
  | [] => ([], Returned)
  | r :: log' =>
      match getitem r "status" with
      | inr e => ([], Raised e)
      | inl status =>
          if eq_int status 404 then
            match getitem r "host" with
            | inr e => ([], Raised e)
            | inl host =>
                match getitem r "datetime" with
                | inr e => ([], Raised e)
                | inl datetime =>
                    match getitem r "request" with
                    | inr e => ([], Raised e)
                    | inl request =>
                        let '(out, how) := print_r404_records log' in
                        ([host; datetime; request] :: out, how)
                    end
                end
            end
          else print_r404_records log'
      end
  end.

(** [print_r404(log_q)] of genqueue.py. *)
Definition print_r404 (log_q : list (pyobj (gmap string value)))
  : list (list value) * stopped :=
  for_loop print_r404_records (genfrom_queue log_q).

(** The loop of [find_404] of consthread.py: as above, but it prints
    status, datetime and request. *)
Fixpoint find_404_records (log : list (pyobj (gmap string value)))
  : list (list value) * outcome exn :=
  match log with
  | [] => ([], Returned)
  | r :: log' =>
      match getitem r "status" with
      | inr e => ([], Raised e)
      | inl status =>
          if eq_int status 404 then
            match getitem r "status" with
            | inr e => ([], Raised e)
            | inl status' =>
                match getitem r "datetime" with
                | inr e => ([], Raised e)
                | inl datetime =>
                    match getitem r "request" with
                    | inr e => ([], Raised e)
                    | inl request =>
                        let '(out, how) := find_404_records log' in
                        ([status'; datetime; request] :: out, how)
                    end
                end
            end
          else find_404_records log'
      end
  end.

(** [find_404(log)]: [log] is the generator the thread hands over. *)
Definition find_404
    (log : list (pyobj (gmap string value)) * option (list (pyobj (gmap string value))))
  : list (list value) * stopped :=
  for_loop find_404_records log.

(** The loop of [bytes_transferred]: [total += r['bytes']], then the
    total is printed.  Adding a string to the integer total is a
    [TypeError]. *)
Fixpoint bytes_transferred_records (total : Z) (log : list (pyobj (gmap string value)))
  : list (list value) * outcome exn :=
  match log with
  | [] => ([], Returned)
  | r :: log' =>
      match getitem r "bytes" with
      | inr e => ([], Raised e)
      | inl (VStr _) => ([], Raised TypeError)
      | inl (VInt b) =>
          let total' := (total + b)%Z in
          let '(out, how) := bytes_transferred_records total' log' in
          ([VStr "Total bytes"; VInt total'] :: out, how)
      end
  end.

(** [bytes_transferred(log)]: [total = 0], then the loop. *)
Definition bytes_transferred
    (log : list (pyobj (gmap string value)) * option (list (pyobj (gmap string value))))
  : list (list value) * stopped :=
  for_loop (bytes_transferred_records 0) log.

(** A record with the five fields the consumers read. *)
Record logline : Type := {
  host : string;
  datetime : string;
  request : string;
  status : Z;
  bytes : Z
}.

Definition to_dict (l : logline) : gmap string value :=
  <["host" := VStr (host l)]>
    (<["datetime" := VStr (datetime l)]>
       (<["request" := VStr (request l)]>
          (<["status" := VInt (status l)]>
             (<["bytes" := VInt (bytes l)]> ∅)))).

End Examples.

(** ** More on the threads of [multiplex] *)

Module Sources.
Import GenQueue GenMultiplex.

Section Sources.
Context {T E : Type}.

(** A source over the items [xs] that ends normally, or raises [err]
    after them. *)
Definition iterator (s : list T * option E) : upstream T E :=
  match s.2 with
  | None => of_list (Obj <$> s.1)
  | Some err => failing (Obj <$> s.1) err
  end.

(** The first thread that is still in its loop. *)
Fixpoint first_alive (thrs : list (thread T E)) : option nat :=
  match thrs with
  | [] => None
  | Alive _ :: _ => Some 0
  | Exited _ :: thrs' => S <$> first_alive thrs'
  end.

(** A move that can happen in [w], if there is one: a thread in its loop
    goes first, the merged sequence pulls when no thread is left. *)
Definition enabled (pick : nat -> list gen_state -> option nat) (w : world T E)
  : option action :=
  match first_alive (threads w) with
  | Some i => Some (Thread i)
  | None =>
      match step pick Next w with
      | Some _ => Some Next
      | None => None
      end
  end.

End Sources.
End Sources.

Import GenQueue GenCat GenMultiplex Accounting.

(** * Facts about [genqueue.py] *)

Section GenQueueFacts.
Context {T E : Type}.
Implicit Types (q thequeue post : list (pyobj T)) (xs ys : list T).
Implicit Types (source : upstream T E).

Lemma sendto_queue_puts source thequeue :
  sendto_queue source thequeue = (thequeue ++ puts source, ending source).
Proof.
  revert thequeue.
  induction source as [|err|item rest IH]; intros thequeue; simpl.
  - reflexivity.
  - by rewrite app_nil_r.
  - rewrite IH. unfold put. by rewrite <- app_assoc.
Qed.

(** The thread's turns, run one after the other, are the call. *)
Lemma sendto_queue_by_steps source thequeue :
  sendto_queue source thequeue =
  match sendto_queue_step source thequeue with
  | (q', Alive rest) => sendto_queue rest q'
  | (q', Exited how) => (q', how)
  end.
Proof. by destruct source. Qed.

Lemma puts_of_list (l : list (pyobj T)) :
  puts (of_list (E:=E) l) = l ++ [StopIteration].
Proof. induction l as [|item l IH]; simpl; congruence. Qed.

Lemma ending_of_list (l : list (pyobj T)) : ending (of_list (E:=E) l) = Returned.
Proof. induction l; simpl; auto. Qed.

Lemma puts_failing (l : list (pyobj T)) (err : E) : puts (failing l err) = l.
Proof. induction l as [|item l IH]; simpl; congruence. Qed.

Lemma ending_failing (l : list (pyobj T)) (err : E) :
  ending (failing l err) = Raised err.
Proof. induction l; simpl; auto. Qed.

Lemma items_Obj xs : items (Obj <$> xs) = xs.
Proof. unfold items. induction xs as [|x xs IH]; simpl; [done|]. by f_equal. Qed.

Lemma items_app (l k : list (pyobj T)) : items (l ++ k) = items l ++ items k.
Proof. apply omap_app. Qed.

(** The generator yields the entries before the first marker, takes the
    marker and leaves what follows it. *)
Lemma genfrom_queue_marker xs post :
  genfrom_queue ((Obj <$> xs) ++ StopIteration :: post) = (Obj <$> xs, Some post).
Proof. induction xs as [|x xs IH]; csimpl; [done|]. by rewrite IH. Qed.

(** Without a marker it yields everything and waits. *)
Lemma genfrom_queue_waits xs :
  genfrom_queue (Obj <$> xs) = (Obj <$> xs, None).
Proof. induction xs as [|x xs IH]; csimpl; [done|]. by rewrite IH. Qed.

(** Entries that arrive later do not change what was yielded before. *)
Lemma genfrom_queue_app q1 q2 :
  genfrom_queue (q1 ++ q2) =
  match genfrom_queue q1 with
  | (ys, Some rest) => (ys, Some (rest ++ q2))
  | (ys, None) => let '(zs, r) := genfrom_queue q2 in (ys ++ zs, r)
  end.
Proof.
  induction q1 as [|item q1 IH]; csimpl.
  - by destruct (genfrom_queue q2).
  - destruct (is_StopIteration item); [done|].
    rewrite IH. destruct (genfrom_queue q1) as [ys [rest|]]; [done|].
    by destruct (genfrom_queue q2).
Qed.

(** A prefix without the marker is a list of items. *)
Lemma no_marker_items q :
  (forall j, j < length q -> q !! j <> Some StopIteration) ->
  q = Obj <$> items q.
Proof.
  induction q as [|item q IH]; intros H; [done|].
  destruct item as [|x].
  - exfalso. apply (H 0); csimpl; [lia|done].
  - unfold items in *. csimpl. f_equal. apply IH.
    intros j Hj. apply (H (S j)). csimpl. lia.
Qed.

Lemma pull_n_finished n q :
  pull_n n Finished q = (replicate n Ended, Finished, q).
Proof. induction n as [|n IH]; csimpl; [done|]. by rewrite IH. Qed.

Lemma pull_n_run xs n post :
  pull_n (length xs + S n) Running ((Obj <$> xs) ++ StopIteration :: post)
  = ((Yielded ∘ Obj <$> xs) ++ replicate (S n) Ended, Finished, post).
Proof.
  induction xs as [|x xs IH]; csimpl.
  - by rewrite pull_n_finished.
  - by rewrite IH.
Qed.

Lemma pull_n_blocks xs n :
  pull_n (length xs + S n) Running (Obj <$> xs)
  = ((Yielded ∘ Obj <$> xs) ++ [Blocks], Running, []).
Proof. induction xs as [|x xs IH]; csimpl; [done|]. by rewrite IH. Qed.

End GenQueueFacts.

(** * Facts about the runs of [multiplex] *)

Lemma sum_list_with_insert {A} (f : A -> nat) (l : list A) i x y :
  l !! i = Some x ->
  sum_list_with f (<[i := y]> l) + f x = sum_list_with f l + f y.
Proof.
  revert i. induction l as [|a l IH]; intros [|i] H; simplify_eq/=.
  - lia.
  - specialize (IH _ H). lia.
Qed.

Lemma sum_list_with_zero {A} (f : A -> nat) (l : list A) :
  Forall (fun a => f a = 0) l -> sum_list_with f l = 0.
Proof. induction 1 as [|a l Ha _ IH]; simpl; lia. Qed.

Lemma sum_list_with_add {A} (f g : A -> nat) (l : list A) :
  sum_list_with (fun i => f i + g i) l = sum_list_with f l + sum_list_with g l.
Proof. induction l as [|a l IH]; simpl; lia. Qed.

Lemma sum_list_with_ext {A} (f g : A -> nat) (l : list A) :
  (forall a, a ∈ l -> f a = g a) -> sum_list_with f l = sum_list_with g l.
Proof.
  induction l as [|a l IH]; intros H; simpl; [done|].
  rewrite (H a), IH; [done| |].
  - intros b Hb. apply H, elem_of_cons. by right.
  - apply elem_of_cons. by left.
Qed.

(** One position of [seq] is hit. *)
Lemma sum_list_with_indicator (k start n : nat) :
  sum_list_with (fun i => if decide (k = i) then 1 else 0) (seq start n)
  = if decide (start <= k < start + n) then 1 else 0.
Proof.
  revert start. induction n as [|n IH]; intros start; simpl.
  - case_decide; lia.
  - rewrite IH. repeat case_decide; lia.
Qed.

(** A list of labelled values is as long as its parts by label. *)
Lemma length_by_label {A} (l : list (nat * A)) (n : nat) :
  (forall p, p ∈ l -> p.1 < n) ->
  length l = sum_list_with (fun i => length (filter (fun p => p.1 = i) l)) (seq 0 n).
Proof.
  induction l as [|p l IH]; intros H.
  - symmetry. apply sum_list_with_zero. by apply Forall_forall.
  - rewrite (sum_list_with_ext _
      (fun i => (if decide (p.1 = i) then 1 else 0)
                + length (filter (fun p => p.1 = i) l))).
    + rewrite sum_list_with_add, sum_list_with_indicator, <- IH.
      * assert (p.1 < n) by (apply H, elem_of_cons; by left).
        case_decide; simpl; lia.
      * intros q Hq. apply H, elem_of_cons. by right.
    + intros i _. rewrite filter_cons. by case_decide.
Qed.

Section Moves.
Context {T E : Type}.
Implicit Types (w : world T E) (tr : list (event T E)) (ev : event T E).

Lemma enqueued_cons ev tr : enqueued (ev :: tr) = enqueued [ev] ++ enqueued tr.
Proof. unfold enqueued. by rewrite (omap_app _ [ev] tr). Qed.

Lemma dequeued_cons ev tr : dequeued (ev :: tr) = dequeued [ev] ++ dequeued tr.
Proof. unfold dequeued. by rewrite (omap_app _ [ev] tr). Qed.

Lemma yields_cons ev tr : yields (ev :: tr) = yields [ev] ++ yields tr.
Proof. unfold yields. by rewrite (omap_app _ [ev] tr). Qed.

Lemma sent_by_cons i ev tr : sent_by i (ev :: tr) = sent_by i [ev] ++ sent_by i tr.
Proof. unfold sent_by. by rewrite enqueued_cons, filter_app, fmap_app. Qed.

Lemma enqueued_app tr1 tr2 : enqueued (tr1 ++ tr2) = enqueued tr1 ++ enqueued tr2.
Proof. apply omap_app. Qed.

Lemma yields_app tr1 tr2 : yields (tr1 ++ tr2) = yields tr1 ++ yields tr2.
Proof. apply omap_app. Qed.

(** FIFO: what was in the queue and what was put since is what was
    taken out and what is left, in that order. *)
Lemma moves_fifo w tr w' :
  moves w tr w' -> in_q w ++ (enqueued tr).*2 = dequeued tr ++ in_q w'.
Proof.
  induction 1 as [w|w ev w1 tr w2 Hm _ IH].
  - by rewrite app_nil_r.
  - assert (in_q w ++ (enqueued [ev]).*2 = dequeued [ev] ++ in_q w1) as Hstep.
    { destruct Hm as [w i t item t' _ _ _|w i t err _ _ _|w j x q c Hq _|w j q c Hq _];
        csimpl; rewrite ?app_nil_r; try done; by rewrite Hq. }
    rewrite enqueued_cons, dequeued_cons, fmap_app, <- (app_assoc (dequeued [ev])), <- IH.
    by rewrite !app_assoc, Hstep.
Qed.

Lemma moved_threads_length w ev w' :
  moved w ev w' -> length (threads w') = length (threads w).
Proof. destruct 1; simpl; by rewrite ?length_insert. Qed.

Lemma moved_consumers_length w ev w' :
  moved w ev w' -> length (consumers w') = length (consumers w).
Proof. destruct 1; simpl; by rewrite ?length_insert. Qed.

Lemma moves_threads_length w tr w' :
  moves w tr w' -> length (threads w') = length (threads w).
Proof.
  induction 1 as [|w ev w1 tr w2 Hm _ IH]; [done|].
  by rewrite IH, (moved_threads_length _ _ _ Hm).
Qed.

Lemma pend_insert_eq w i t t' q gs c :
  threads w !! i = Some t ->
  pend i {| in_q := q; threads := <[i := t']> (threads w); consumers := gs; cursor := c |}
  = pending t'.
Proof.
  intros H. unfold pend. simpl.
  rewrite list_lookup_insert_eq; [done|]. by eapply lookup_lt_Some.
Qed.

Lemma pend_insert_ne w i k t' q gs c :
  i <> k ->
  pend k {| in_q := q; threads := <[i := t']> (threads w); consumers := gs; cursor := c |}
  = pend k w.
Proof. intros H. unfold pend. simpl. by rewrite list_lookup_insert_ne. Qed.

(** What a thread has put and what it has yet to put is what it had to
    put at the start. *)
Lemma moves_sent_by w tr w' k :
  moves w tr w' -> sent_by k tr ++ pend k w' = pend k w.
Proof.
  induction 1 as [w|w ev w1 tr w2 Hm _ IH]; [done|].
  rewrite sent_by_cons, <- app_assoc, IH. clear IH.
  destruct Hm as [w i t item t' Hi _ Hp|w i t err Hi _ Hp|w j x q c _ _|w j q c _ _];
    try done.
  - unfold sent_by. csimpl. rewrite filter_cons. simpl. case_decide; csimpl.
    + subst k. rewrite (pend_insert_eq _ _ _ _ _ _ _ Hi).
      unfold pend. by rewrite Hi.
    + by rewrite pend_insert_ne.
  - unfold sent_by. csimpl. destruct (decide (i = k)) as [->|Hne].
    + rewrite (pend_insert_eq _ _ _ _ _ _ _ Hi). unfold pend. by rewrite Hi.
    + by rewrite pend_insert_ne.
Qed.

(** Every entry put was put by a thread that exists. *)
Lemma moves_enqueued_lt w tr w' :
  moves w tr w' -> forall p, p ∈ enqueued tr -> p.1 < length (threads w).
Proof.
  induction 1 as [w|w ev w1 tr w2 Hm _ IH]; intros p Hp.
  - by apply elem_of_nil in Hp.
  - rewrite enqueued_cons in Hp. apply elem_of_app in Hp as [Hp|Hp].
    + destruct Hm as [w i t item t' Hi _ _| | |]; csimpl in Hp;
        try by apply elem_of_nil in Hp.
      apply list_elem_of_singleton in Hp as ->. simpl. by eapply lookup_lt_Some.
    + rewrite <- (moved_threads_length _ _ _ Hm). by apply IH.
Qed.

Lemma running_insert_finished (gs : list gen_state) j :
  gs !! j = Some Running -> running gs = S (running (<[j := Finished]> gs)).
Proof.
  intros H. unfold running.
  pose proof (sum_list_with_insert (fun g => if finished g then 0 else 1) gs j
                Running Finished H) as Hs.
  simpl in Hs. lia.
Qed.

(** Each marker taken out finishes one generator. *)
Lemma moves_running w tr w' :
  moves w tr w' ->
  running (consumers w) = markers (dequeued tr) + running (consumers w').
Proof.
  induction 1 as [w|w ev w1 tr w2 Hm _ IH]; [done|].
  rewrite dequeued_cons. unfold markers in *. rewrite sum_list_with_app, <- Nat.add_assoc, <- IH.
  destruct Hm as [w i t item t' _ _ _|w i t err _ _ _|w j x q c _ _|w j q c _ Hj];
    try done.
  csimpl. by rewrite (running_insert_finished _ _ Hj).
Qed.

(** The merged sequence yields the entries taken out that are not the
    marker. *)
Lemma moves_yields w tr w' :
  moves w tr w' -> yields tr = Obj <$> items (dequeued tr).
Proof.
  induction 1 as [w|w ev w1 tr w2 Hm _ IH]; [done|].
  rewrite yields_cons, dequeued_cons, items_app, fmap_app, IH.
  by destruct Hm.
Qed.

Lemma markers_app (l k : list (pyobj T)) : markers (l ++ k) = markers l + markers k.
Proof. apply sum_list_with_app. Qed.

Lemma moved_balanced w ev w' : moved w ev w' -> balanced w -> balanced w'.
Proof.
  unfold balanced.
  destruct 1 as [w i t item t' Hi _ Hp|w i t err Hi _ Hp|w j x q c Hq _|w j q c Hq Hj];
    simpl; intros Hb.
  - pose proof (sum_list_with_insert (fun t => markers (pending t)) _ _ _ t' Hi) as Hs.
    set (f := fun t : thread T E => markers (pending t)) in *.
    assert (f t = marker item + f t') as Hf by (unfold f; by rewrite Hp).
    rewrite markers_app. change (markers [item]) with (marker item + 0). lia.
  - pose proof (sum_list_with_insert (fun t => markers (pending t)) _ _ _
                  (Exited (Raised err)) Hi) as Hs.
    set (f := fun t : thread T E => markers (pending t)) in *.
    assert (f t = 0) as Hf by (unfold f; by rewrite Hp).
    assert (f (Exited (Raised err)) = 0) as Hf' by done.
    lia.
  - rewrite Hq in Hb. by change (markers (Obj x :: q)) with (markers q) in Hb.
  - rewrite Hq in Hb. rewrite (running_insert_finished _ _ Hj) in Hb.
    change (markers (StopIteration :: q)) with (S (markers q)) in Hb. lia.
Qed.

Lemma moves_balanced w tr w' : moves w tr w' -> balanced w -> balanced w'.
Proof. induction 1; eauto using moved_balanced. Qed.

End Moves.

Section Closing.
Context {T E : Type}.
Implicit Types (w : world T E) (tr : list (event T E)) (ev : event T E).

Lemma Forall_insert_back {A} (P : A -> Prop) (l : list A) i x y :
  l !! i = Some x -> P x -> Forall P (<[i := y]> l) -> Forall P l.
Proof.
  intros Hi Px H.
  rewrite <- (list_insert_id l i x Hi), <- (list_insert_insert_eq l i x y).
  by apply Forall_insert.
Qed.

Lemma moved_closing w ev w' : moved w ev w' -> closing w -> closing w'.
Proof.
  unfold closing.
  destruct 1 as [w i t item t' Hi _ Hp|w i t err Hi _ Hp|w j x q c Hq _|w j q c Hq _];
    simpl; intros [Hall Hq'].
  - pose proof (Forall_lookup_1 _ _ _ _ Hall Hi) as [Ht|Ht];
      [by rewrite Hp in Ht|].
    rewrite Hp, last_cons in Ht. split.
    + apply Forall_insert; [done|]. unfold well_ended.
      destruct (last (pending t')) eqn:Hl; [by right|].
      apply last_None in Hl. by left.
    + intros Hnone. right. rewrite last_snoc.
      assert (pending t' = []) as Ht'.
      { eapply (Forall_lookup_1 _ _ i t' Hnone).
        apply list_lookup_insert_eq. by eapply lookup_lt_Some. }
      rewrite Ht' in Ht. by simplify_eq/=.
  - split.
    + apply Forall_insert; [done|]. by left.
    + intros Hnone. apply Hq'. by eapply Forall_insert_back.
  - split; [done|]. intros Hnone. destruct (Hq' Hnone) as [Hn|Hl].
    + by rewrite Hq in Hn.
    + rewrite Hq, last_cons in Hl. destruct (last q) eqn:Hlq; [by right|].
      by simplify_eq.
  - split; [done|]. intros Hnone. destruct (Hq' Hnone) as [Hn|Hl].
    + by rewrite Hq in Hn.
    + rewrite Hq, last_cons in Hl. destruct (last q) eqn:Hlq; [by right|].
      apply last_None in Hlq. by left.
Qed.

Lemma moves_closing w tr w' : moves w tr w' -> closing w -> closing w'.
Proof. induction 1; eauto using moved_closing. Qed.

Lemma final_threads w :
  final w = true -> Forall (fun t => pending t = []) (threads w).
Proof.
  unfold final. intros [H _]%andb_prop.
  apply Forall_forall. intros t Ht.
  rewrite forallb_forall in H. apply list_elem_of_In, H in Ht.
  by destruct t.
Qed.

Lemma final_consumers w : final w = true -> running (consumers w) = 0.
Proof.
  unfold final. intros [_ H]%andb_prop.
  apply sum_list_with_zero, Forall_forall. intros g Hg.
  rewrite forallb_forall in H. apply list_elem_of_In, H in Hg.
  by destruct g.
Qed.

Lemma markers_last (l : list (pyobj T)) :
  last l = Some StopIteration -> 0 < markers l.
Proof.
  intros [l' ->]%last_Some. rewrite markers_app.
  change (markers [StopIteration]) with 1. lia.
Qed.

(** When all is over nothing is left in the queue. *)
Lemma final_empty w :
  balanced w -> closing w -> final w = true -> in_q w = [].
Proof.
  intros Hb [_ Hc] Hf.
  pose proof (final_threads _ Hf) as Hth.
  pose proof (final_consumers _ Hf) as Hr.
  destruct (Hc Hth) as [|Hl]; [done|].
  apply markers_last in Hl. unfold balanced in Hb. lia.
Qed.

Lemma weight_put (t t' : thread T E) item :
  exited t = false -> pending t = item :: pending t' -> weight t' + 2 <= weight t.
Proof.
  unfold weight. intros -> ->. simpl. destruct (exited t'); lia.
Qed.

(** Every move uses up fuel. *)
Lemma moved_fuel w ev w' : moved w ev w' -> fuel w' < fuel w.
Proof.
  unfold fuel.
  destruct 1 as [w i t item t' Hi Ha Hp|w i t err Hi Ha Hp|w j x q c Hq _|w j q c Hq _];
    simpl.
  - pose proof (sum_list_with_insert weight _ _ _ t' Hi) as Hs.
    pose proof (weight_put _ _ _ Ha Hp). rewrite length_app. simpl. lia.
  - pose proof (sum_list_with_insert weight _ _ _ (Exited (Raised err)) Hi) as Hs.
    assert (weight (Exited (Raised err) : thread T E) = 0) as H0 by done.
    assert (0 < weight t) by (unfold weight; rewrite Ha; lia). lia.
  - rewrite Hq. simpl. lia.
  - rewrite Hq. simpl. lia.
Qed.

Lemma moves_fuel w tr w' : moves w tr w' -> length tr + fuel w' <= fuel w.
Proof.
  induction 1 as [w|w ev w1 tr w2 Hm _ IH]; simpl; [lia|].
  apply moved_fuel in Hm. lia.
Qed.

End Closing.

Section Scheduled.
Context {T E : Type}.
Variable pick : nat -> list gen_state -> option nat.
Hypothesis pick_sound : sound pick.
Implicit Types (w : world T E) (tr : list (event T E)) (ev : event T E).
Implicit Types (sched : list action).

Lemma step_moved a w ev w' : step pick a w = Some (ev, w') -> moved w ev w'.
Proof.
  destruct a as [i|]; simpl.
  - destruct (threads w !! i) as [[source|]|] eqn:Hi; try done.
    destruct source as [|err|item rest]; simpl; intros; simplify_eq.
    + by eapply (moved_put w i _ StopIteration (Exited Returned)).
    + by eapply moved_crash.
    + by eapply (moved_put w i _ item (Alive rest)).
  - pose proof (pick_sound (cursor w) (consumers w)) as Hp.
    destruct (pick (cursor w) (consumers w)) as [j|]; [|done].
    rewrite Hp. simpl. destruct (in_q w) as [|[|x] q] eqn:Hq; simpl; intros; simplify_eq.
    + by apply moved_end.
    + rewrite (list_insert_id _ _ _ Hp). by apply moved_yield.
Qed.

Lemma run_moves sched w tr w' : run pick sched w = Some (tr, w') -> moves w tr w'.
Proof.
  revert w tr. induction sched as [|a sched IH]; intros w tr H; simpl in H.
  - simplify_eq. constructor.
  - destruct (step pick a w) as [[ev w1]|] eqn:Hs; [|done].
    destruct (run pick sched w1) as [[tr1 w2]|] eqn:Hr; [|done].
    simplify_eq. econstructor; eauto using step_moved.
Qed.

Lemma run_app sched1 sched2 w tr1 w1 tr2 w2 :
  run pick sched1 w = Some (tr1, w1) -> run pick sched2 w1 = Some (tr2, w2) ->
  run pick (sched1 ++ sched2) w = Some (tr1 ++ tr2, w2).
Proof.
  revert w tr1. induction sched1 as [|a sched1 IH]; intros w tr1 H1 H2; simpl in *.
  - by simplify_eq.
  - destruct (step pick a w) as [[ev w']|]; [|done].
    destruct (run pick sched1 w') as [[tr' w'']|] eqn:Hr; [|done].
    simplify_eq. by rewrite (IH _ _ Hr H2).
Qed.

(** No deadlock: as long as not all is over, some move can happen. *)
Lemma progress w :
  balanced w -> final w = false -> exists a ev w', step pick a w = Some (ev, w').
Proof.
  intros Hb Hf. unfold final in Hf. apply andb_false_iff in Hf.
  destruct (forallb exited (threads w)) eqn:Hth.
  - destruct Hf as [|Hf]; [done|].
    assert (Forall (fun t => markers (pending t) = 0) (threads w)) as Hnone.
    { apply Forall_forall. intros t Ht. rewrite forallb_forall in Hth.
      apply list_elem_of_In, Hth in Ht. by destruct t. }
    apply sum_list_with_zero in Hnone. unfold balanced in Hb.
    pose proof (pick_sound (cursor w) (consumers w)) as Hp.
    destruct (pick (cursor w) (consumers w)) as [j|] eqn:Hpick.
    + pose proof (running_insert_finished _ _ Hp) as Hr.
      destruct (in_q w) as [|item q] eqn:Hq.
      { change (markers []) with 0 in Hb. lia. }
      exists Next. simpl. rewrite Hpick, Hp, Hq. simpl.
      destruct (is_StopIteration item); eauto.
    + exfalso.
      assert (forallb finished (consumers w) = true); [|congruence].
      apply forallb_forall. intros g Hg%list_elem_of_In.
      rewrite Forall_forall in Hp. by rewrite (Hp g Hg).
  - assert (exists i source, threads w !! i = Some (Alive source)) as (i & source & Hi).
    { clear -Hth. induction (threads w) as [|t l IH]; [done|].
      simpl in Hth. destruct t as [source|how].
      - by exists 0, source.
      - destruct (IH Hth) as (i & source & Hi). by exists (S i), source. }
    exists (Thread i). simpl. rewrite Hi.
    destruct (sendto_queue_step source (in_q w)). eauto.
Qed.

(** Every run can be carried on to the end. *)
Lemma completion w :
  balanced w -> exists sched tr w', run pick sched w = Some (tr, w') /\ final w' = true.
Proof.
  remember (fuel w) as n eqn:Hn. revert w Hn.
  induction n as [n IH] using lt_wf_ind. intros w -> Hb.
  destruct (final w) eqn:Hf.
  - by exists [], [], w.
  - destruct (progress w Hb Hf) as (a & ev & w1 & Hs).
    pose proof (step_moved _ _ _ _ Hs) as Hm.
    destruct (IH (fuel w1) (moved_fuel _ _ _ Hm) w1 eq_refl
                (moved_balanced _ _ _ Hm Hb)) as (sched & tr & w2 & Hr & Hf2).
    exists (a :: sched), (ev :: tr), w2. simpl. by rewrite Hs, Hr.
Qed.

End Scheduled.

(** * The merge orders *)

Lemma first_running_Some gs k :
  first_running gs = Some k -> gs !! k = Some Running.
Proof.
  revert k. induction gs as [|[] gs IH]; intros k H; simplify_eq/=; [done|].
  destruct (first_running gs) as [k'|]; simplify_eq/=. by apply IH.
Qed.

Lemma first_running_None gs :
  first_running gs = None -> Forall (fun g => g = Finished) gs.
Proof.
  induction gs as [|[] gs IH]; intros H; simplify_eq/=; [constructor|].
  destruct (first_running gs); simplify_eq/=. constructor; auto.
Qed.

Lemma gen_cat_sound : sound gen_cat.
Proof.
  intros c gs. unfold gen_cat.
  destruct (first_running (drop c gs)) as [k|] eqn:Hd.
  - apply first_running_Some in Hd. by rewrite lookup_drop in Hd.
  - apply first_running_None in Hd.
    destruct (first_running (take c gs)) as [j|] eqn:Ht.
    + apply first_running_Some in Ht. by apply lookup_take_Some in Ht as [? _].
    + apply first_running_None in Ht.
      rewrite <- (take_drop c gs). by apply Forall_app.
Qed.

(** The round-robin order: the adapter at the cursor when it is running,
    the next one when it has finished, adapter 0 again past the last. *)
Lemma gen_cat_at_cursor c gs :
  gs !! c = Some Running -> gen_cat c gs = Some c.
Proof.
  intros H. unfold gen_cat.
  rewrite (drop_S gs Running c H). simpl. f_equal. lia.
Qed.

Lemma gen_cat_skips c gs :
  gs !! c = Some Finished -> gen_cat c gs = gen_cat (S c) gs.
Proof.
  intros H. unfold gen_cat.
  rewrite (drop_S gs Finished c H), (take_S_r gs c Finished H). simpl.
  destruct (first_running (drop (S c) gs)) as [k|] eqn:Hd; simpl.
  - f_equal. lia.
  - clear Hd. induction (take c gs) as [|[] l IH]; simpl; [done|done|].
    by rewrite IH.
Qed.

Lemma gen_cat_wraps c gs :
  length gs <= c -> gen_cat c gs = first_running gs.
Proof.
  intros H. unfold gen_cat. by rewrite drop_ge, take_ge.
Qed.

Lemma chained_sound : sound chained.
Proof.
  intros c gs. unfold chained.
  destruct (first_running gs) eqn:H;
    eauto using first_running_Some, first_running_None.
Qed.

(** * [multiplex] over sources that are lists of items *)

Section Multiplexed.
Context {T E : Type}.
Variable pick : nat -> list gen_state -> option nat.
Hypothesis pick_sound : sound pick.
Implicit Types (w : world T E) (tr : list (event T E)) (ev : event T E).
Implicit Types (sched : list action) (xss : list (list T)).

Lemma multiplex_loop_eq (sources : list (upstream T E)) thrs gs :
  multiplex_loop sources thrs gs
  = (thrs ++ (Alive <$> sources), gs ++ replicate (length sources) Running).
Proof.
  revert thrs gs. induction sources as [|s sources IH]; intros thrs gs; csimpl.
  - by rewrite !app_nil_r.
  - rewrite IH, <- !app_assoc. done.
Qed.

Lemma multiplex_eq (sources : list (upstream T E)) :
  multiplex sources
  = {| in_q := []; threads := Alive <$> sources;
       consumers := replicate (length sources) Running; cursor := 0 |}.
Proof. unfold multiplex. by rewrite multiplex_loop_eq. Qed.

Lemma markers_Obj (xs : list T) : markers (Obj <$> xs) = 0.
Proof. induction xs as [|x xs IH]; [done|]. csimpl. by rewrite <- IH. Qed.

Lemma running_replicate n : running (replicate n Running) = n.
Proof. induction n as [|n IH]; [done|]. unfold running in *. simpl. by rewrite IH. Qed.

Lemma multiplex_balanced xss :
  balanced (multiplex ((fun xs => of_list (E:=E) (Obj <$> xs)) <$> xss)).
Proof.
  rewrite multiplex_eq. unfold balanced. simpl.
  rewrite length_fmap, running_replicate. change (markers []) with 0. simpl.
  induction xss as [|xs xss IH]; [done|]. csimpl. rewrite IH.
  by rewrite puts_of_list, markers_app, markers_Obj.
Qed.

Lemma multiplex_closing xss :
  closing (multiplex ((fun xs => of_list (E:=E) (Obj <$> xs)) <$> xss)).
Proof.
  rewrite multiplex_eq. split; simpl; [|by left].
  apply Forall_fmap, Forall_fmap, Forall_forall. intros xs _. right. simpl.
  by rewrite puts_of_list, last_snoc.
Qed.

Lemma multiplex_pend xss i :
  pend i (multiplex ((fun xs => of_list (E:=E) (Obj <$> xs)) <$> xss))
  = from_option (fun xs => (Obj <$> xs) ++ [StopIteration]) [] (xss !! i).
Proof.
  rewrite multiplex_eq. unfold pend. simpl. rewrite !list_lookup_fmap.
  destruct (xss !! i); [|done]. simpl. by rewrite puts_of_list.
Qed.

Lemma final_pend w i : final w = true -> pend i w = [].
Proof.
  intros Hf%final_threads. unfold pend.
  destruct (threads w !! i) as [t|] eqn:Hi; [|done].
  apply (Forall_lookup_1 _ _ _ _ Hf Hi).
Qed.

Lemma provenance_items tr : (provenance tr).*2 = items (enqueued tr).*2.
Proof.
  unfold provenance, items. induction (enqueued tr) as [|[i [|x]] l IH]; csimpl;
    [done|done|by f_equal].
Qed.

Lemma from_provenance i tr : from i (provenance tr) = items (sent_by i tr).
Proof.
  unfold provenance, from, sent_by, items.
  induction (enqueued tr) as [|[k [|x]] l IH]; csimpl; [done| |].
  - rewrite filter_cons. simpl. by case_decide.
  - rewrite !filter_cons. simpl. case_decide; csimpl; by f_equal.
Qed.

Lemma provenance_lt w tr w' :
  moves w tr w' -> forall p, p ∈ provenance tr -> p.1 < length (threads w).
Proof.
  intros Hm p Hp. unfold provenance in Hp.
  apply list_elem_of_omap in Hp as ([i item] & Hin & Hf).
  pose proof (moves_enqueued_lt _ _ _ Hm _ Hin).
  destruct item; simplify_eq/=. done.
Qed.

Lemma provenance_app tr1 tr2 :
  provenance (tr1 ++ tr2) = provenance tr1 ++ provenance tr2.
Proof. unfold provenance. by rewrite enqueued_app, omap_app. Qed.

(** A run of [multiplex] to the end: every entry put has been taken out
    in the order it was put; the merged sequence yields the items in
    that order; the items that come from source [i] are that source in
    its order; as many items are yielded as the sources hold. *)
Lemma multiplex_complete xss sched tr w :
  run pick sched (multiplex ((fun xs => of_list (E:=E) (Obj <$> xs)) <$> xss))
    = Some (tr, w) ->
  final w = true ->
  in_q w = [] /\
  dequeued tr = (enqueued tr).*2 /\
  yields tr = Obj <$> (provenance tr).*2 /\
  (forall i, sent_by i tr
             = from_option (fun xs => (Obj <$> xs) ++ [StopIteration]) [] (xss !! i)) /\
  (forall i, from i (provenance tr) = default [] (xss !! i)) /\
  length (yields tr)
    = sum_list_with (fun i => length (default [] (xss !! i))) (seq 0 (length xss)).
Proof.
  intros Hr%(run_moves _ pick_sound) Hf.
  pose proof (moves_balanced _ _ _ Hr (multiplex_balanced xss)) as Hb.
  pose proof (moves_closing _ _ _ Hr (multiplex_closing xss)) as Hc.
  pose proof (final_empty _ Hb Hc Hf) as Hq.
  pose proof (moves_fifo _ _ _ Hr) as Hfifo.
  rewrite Hq, app_nil_r in Hfifo. rewrite multiplex_eq in Hfifo. simpl in Hfifo.
  assert (forall i, sent_by i tr
             = from_option (fun xs => (Obj <$> xs) ++ [StopIteration]) [] (xss !! i))
    as Hsent.
  { intros i. pose proof (moves_sent_by _ _ _ i Hr) as Hs.
    by rewrite (final_pend _ _ Hf), app_nil_r, multiplex_pend in Hs. }
  assert (forall i, from i (provenance tr) = default [] (xss !! i)) as Hfrom.
  { intros i. rewrite from_provenance, Hsent. destruct (xss !! i) as [xs|]; [|done].
    simpl. by rewrite items_app, items_Obj, app_nil_r. }
  assert (yields tr = Obj <$> (provenance tr).*2) as Hy.
  { by rewrite (moves_yields _ _ _ Hr), provenance_items, Hfifo. }
  repeat split; try done.
  rewrite Hy, !length_fmap.
  rewrite (length_by_label (provenance tr) (length xss)).
  - apply sum_list_with_ext. intros i _. rewrite <- Hfrom. unfold from.
    by rewrite length_fmap.
  - intros p Hp. pose proof (provenance_lt _ _ _ Hr p Hp) as Hlt.
    rewrite multiplex_eq in Hlt. simpl in Hlt. by rewrite !length_fmap in Hlt.
Qed.

(** Such a run exists. *)
Lemma multiplex_completes xss :
  exists sched tr w,
    run pick sched (multiplex ((fun xs => of_list (E:=E) (Obj <$> xs)) <$> xss))
      = Some (tr, w) /\ final w = true.
Proof. apply completion; [done|]. apply multiplex_balanced. Qed.

(** No run goes on for ever: a run is never longer than two moves per
    entry to put. *)
Lemma multiplex_bounded xss sched tr w :
  run pick sched (multiplex ((fun xs => of_list (E:=E) (Obj <$> xs)) <$> xss))
    = Some (tr, w) ->
  length sched <= fuel (multiplex ((fun xs => of_list (E:=E) (Obj <$> xs)) <$> xss)).
Proof.
  intros Hr. pose proof (run_moves _ pick_sound _ _ _ _ Hr) as Hm.
  apply moves_fuel in Hm.
  assert (length tr = length sched) as <-; [|lia].
  clear Hm. revert Hr. generalize (multiplex ((fun xs => of_list (E:=E) (Obj <$> xs)) <$> xss)).
  revert tr. induction sched as [|a sched IH]; intros tr w0 H; simpl in H.
  - by simplify_eq.
  - destruct (step pick a w0) as [[ev w1]|]; [|done].
    destruct (run pick sched w1) as [[tr1 w2]|] eqn:Hr; [|done].
    simplify_eq. simpl. f_equal. by eapply IH.
Qed.

(** A run that puts everything first can be carried on to the end, and
    what it yields is what was put, in that order. *)
Lemma multiplex_puts_first xss sched1 tr1 w1 :
  run pick sched1 (multiplex ((fun xs => of_list (E:=E) (Obj <$> xs)) <$> xss))
    = Some (tr1, w1) ->
  length (provenance tr1)
    = sum_list_with (fun i => length (default [] (xss !! i))) (seq 0 (length xss)) ->
  exists sched tr w,
    run pick sched (multiplex ((fun xs => of_list (E:=E) (Obj <$> xs)) <$> xss))
      = Some (tr, w) /\ final w = true /\
    yields tr = Obj <$> (provenance tr1).*2.
Proof.
  intros Hr1 Hlen.
  pose proof (run_moves _ pick_sound _ _ _ _ Hr1) as Hm1.
  pose proof (moves_balanced _ _ _ Hm1 (multiplex_balanced xss)) as Hb1.
  destruct (completion _ pick_sound w1 Hb1) as (sched2 & tr2 & w2 & Hr2 & Hf).
  pose proof (run_app _ _ _ _ _ _ _ _ Hr1 Hr2) as Hr.
  exists (sched1 ++ sched2), (tr1 ++ tr2), w2. split; [done|]. split; [done|].
  destruct (multiplex_complete _ _ _ _ Hr Hf) as (_ & _ & Hy & _ & _ & Hl).
  rewrite Hy, provenance_app. rewrite Hy, !length_fmap, provenance_app, length_app in Hl.
  assert (provenance tr2 = []) as -> by (apply nil_length_inv; lia).
  by rewrite app_nil_r.
Qed.

End Multiplexed.

(** * The properties of the pipeline *)

Section MultiplexProperties.
Context {T E : Type}.

(** [pick] is the order in which the merged sequence pulls its
    generators.  [gencat.py] is not among the sources, so the properties
    are proved for every order that is [sound]; the round-robin [gen_cat]
    is one. *)
Variable pick : nat -> list gen_state -> option nat.
Hypothesis pick_sound : sound pick.
Implicit Types (w : world T E) (tr : list (event T E)) (sched : list action).

Lemma multiplex_no_deadlock (xss : list (list T)) sched tr w :
  run pick sched (multiplex ((fun xs => of_list (E:=E) (Obj <$> xs)) <$> xss))
    = Some (tr, w) ->
  final w = false ->
  exists a ev w', step pick a w = Some (ev, w').
Proof.
  intros Hr%(run_moves _ pick_sound) Hf. apply progress; [done| |done].
  eapply moves_balanced; [done|]. apply multiplex_balanced.
Qed.

Lemma filter_label_0 {A} (l : list (nat * A)) :
  (forall p, p ∈ l -> p.1 < 1) -> filter (fun p => p.1 = 0) l = l.
Proof.
  induction l as [|p l IH]; intros H; [done|].
  rewrite filter_cons_True, IH; [done| |].
  - intros q Hq. apply H, elem_of_cons. by right.
  - assert (p.1 < 1) by (apply H, elem_of_cons; by left). lia.
Qed.

(** C1, as amended.  For A = [a0, a1] and B = [b0, b1, b2], every run of
    multiplex([A, B]) to the end yields five items, in the order in which
    the two threads put them into the one queue they share: the items
    from A are a0, a1 in that order, those from B are b0, b1, b2 in that
    order.  When the puts of the two threads alternate the merged
    sequence is [a0, b0, a1, b1, b2]; when the first thread is done before
    the second starts it is [a0, a1, b0, b1, b2].  The merged sequence
    ends once both markers have been taken out. *)
Theorem multiplex_two_sources (a0 a1 b0 b1 b2 : T) :
  (forall sched tr w,
     run pick sched
         (multiplex [of_list (E:=E) [Obj a0; Obj a1];
                     of_list [Obj b0; Obj b1; Obj b2]]) = Some (tr, w) ->
     final w = true ->
     length (yields tr) = 5 /\
     yields tr = Obj <$> (provenance tr).*2 /\
     from 0 (provenance tr) = [a0; a1] /\
     from 1 (provenance tr) = [b0; b1; b2] /\
     markers (dequeued tr) = 2) /\
  (exists sched tr w,
     run pick sched
         (multiplex [of_list (E:=E) [Obj a0; Obj a1];
                     of_list [Obj b0; Obj b1; Obj b2]]) = Some (tr, w) /\
     final w = true /\
     yields tr = [Obj a0; Obj b0; Obj a1; Obj b1; Obj b2]) /\
  (exists sched tr w,
     run pick sched
         (multiplex [of_list (E:=E) [Obj a0; Obj a1];
                     of_list [Obj b0; Obj b1; Obj b2]]) = Some (tr, w) /\
     final w = true /\
     yields tr = [Obj a0; Obj a1; Obj b0; Obj b1; Obj b2]).
Proof.
  split; [|split].
  - intros sched tr w Hr Hf.
    pose proof (multiplex_complete pick pick_sound [[a0; a1]; [b0; b1; b2]]
                  sched tr w Hr Hf) as (_ & _ & Hy & _ & Hfrom & Hl).
    pose proof (moves_running _ _ _ (run_moves _ pick_sound _ _ _ _ Hr)) as Hrun.
    rewrite (final_consumers _ Hf) in Hrun.
    split; [exact Hl|]. split; [exact Hy|].
    split; [apply (Hfrom 0)|]. split; [apply (Hfrom 1)|].
    simpl in Hrun. unfold running in Hrun. simpl in Hrun. lia.
  - apply (multiplex_puts_first pick pick_sound [[a0; a1]; [b0; b1; b2]]
             [Thread 0; Thread 1; Thread 0; Thread 1; Thread 0; Thread 1; Thread 1]
             _ _ eq_refl eq_refl).
  - apply (multiplex_puts_first pick pick_sound [[a0; a1]; [b0; b1; b2]]
             [Thread 0; Thread 0; Thread 0; Thread 1; Thread 1; Thread 1; Thread 1]
             _ _ eq_refl eq_refl).
Qed.

(** C2.  For all lists of items A, B and C, multiplex([A, B, C]) runs to
    the end whatever the order in which the threads and the consumer
    move: no run is longer than a bound, a run that is not at its end
    can go on, and a run to the end exists.  Every run to the end yields
    exactly len(A) + len(B) + len(C) items, and the items that come from
    A are A in its order, those from B are B, those from C are C. *)
Theorem multiplex_three_sources (A B C : list T) :
  (exists sched tr w,
     run pick sched
         (multiplex [of_list (E:=E) (Obj <$> A); of_list (Obj <$> B);
                     of_list (Obj <$> C)]) = Some (tr, w) /\
     final w = true) /\
  (forall sched tr w,
     run pick sched
         (multiplex [of_list (E:=E) (Obj <$> A); of_list (Obj <$> B);
                     of_list (Obj <$> C)]) = Some (tr, w) ->
     length sched <= 2 * (length A + length B + length C) + 9 /\
     (final w = false -> exists a ev w', step pick a w = Some (ev, w')) /\
     (final w = true ->
      length (yields tr) = length A + length B + length C /\
      yields tr = Obj <$> (provenance tr).*2 /\
      from 0 (provenance tr) = A /\
      from 1 (provenance tr) = B /\
      from 2 (provenance tr) = C)).
Proof.
  split.
  - apply (multiplex_completes pick pick_sound [A; B; C]).
  - intros sched tr w Hr. split; [|split].
    + pose proof (multiplex_bounded pick pick_sound [A; B; C] sched tr w Hr) as Hb.
      unfold fuel, weight in Hb. simpl in Hb.
      rewrite !puts_of_list, !length_app, !length_fmap in Hb. simpl in Hb. lia.
    + apply (multiplex_no_deadlock [A; B; C] sched tr w Hr).
    + intros Hf.
      pose proof (multiplex_complete pick pick_sound [A; B; C]
                    sched tr w Hr Hf) as (_ & _ & Hy & _ & Hfrom & Hl).
      split; [simpl in Hl; lia|]. split; [exact Hy|].
      split; [apply (Hfrom 0)|]. split; [apply (Hfrom 1)|apply (Hfrom 2)].
Qed.

(** C6.  For every list of items A, multiplex([A]) runs to the end, and
    every run to the end yields exactly the elements of A in the order of
    A. *)
Theorem multiplex_single_source (A : list T) :
  (exists sched tr w,
     run pick sched (multiplex [of_list (E:=E) (Obj <$> A)]) = Some (tr, w) /\
     final w = true) /\
  (forall sched tr w,
     run pick sched (multiplex [of_list (E:=E) (Obj <$> A)]) = Some (tr, w) ->
     final w = true ->
     yields tr = Obj <$> A).
Proof.
  split.
  - apply (multiplex_completes pick pick_sound [A]).
  - intros sched tr w Hr Hf.
    pose proof (multiplex_complete pick pick_sound [A]
                  sched tr w Hr Hf) as (_ & _ & Hy & _ & Hfrom & _).
    pose proof (Hfrom 0) as H0. simpl in H0.
    rewrite Hy. f_equal. rewrite <- H0. unfold from.
    rewrite filter_label_0; [done|].
    apply (provenance_lt _ _ _ (run_moves _ pick_sound _ _ _ _ Hr)).
Qed.

Lemma last_sent_by tr p :
  last (enqueued tr) = Some p -> last (sent_by p.1 tr) = Some p.2.
Proof.
  intros [l Hl]%last_Some. unfold sent_by. rewrite Hl, filter_app, fmap_app.
  rewrite filter_cons_True by done. by rewrite (last_snoc p.2).
Qed.

(** C3, as amended.  A queue fed by one sendto_queue over a list of items
    receives the marker once, as its last entry, and genfrom_queue over
    it yields the items, takes the marker out and ends with nothing left
    behind it.  The one queue that multiplex creates is shared by its N
    sources: in a run to the end it receives N markers, one from each
    thread after the items of that thread's source, and the last entry
    put is a marker; the entries are taken out in the order they were
    put, each of the N generators ends on one marker, and nothing is
    left in the queue. *)
Theorem channel_markers :
  (forall xss : list (list T),
     exists sched tr w,
       run pick sched (multiplex ((fun xs => of_list (E:=E) (Obj <$> xs)) <$> xss))
         = Some (tr, w) /\ final w = true) /\
  (forall xs : list T,
     sendto_queue (of_list (E:=E) (Obj <$> xs)) []
       = ((Obj <$> xs) ++ [StopIteration], Returned) /\
     markers ((Obj <$> xs) ++ [StopIteration]) = 1 /\
     genfrom_queue ((Obj <$> xs) ++ [StopIteration]) = (Obj <$> xs, Some [])) /\
  (forall (xss : list (list T)) sched tr w,
     run pick sched (multiplex ((fun xs => of_list (E:=E) (Obj <$> xs)) <$> xss))
       = Some (tr, w) ->
     final w = true ->
     markers (enqueued tr).*2 = length xss /\
     (forall i xs, xss !! i = Some xs ->
                   sent_by i tr = (Obj <$> xs) ++ [StopIteration]) /\
     (xss <> [] -> last (enqueued tr).*2 = Some StopIteration) /\
     dequeued tr = (enqueued tr).*2 /\
     markers (dequeued tr) = length (consumers w) /\
     in_q w = []).
Proof.
  split; [apply (multiplex_completes pick pick_sound)|].
  split.
  - intros xs. rewrite sendto_queue_puts, puts_of_list, ending_of_list.
    rewrite markers_app, markers_Obj, genfrom_queue_marker. done.
  - intros xss sched tr w Hr Hf.
    pose proof (multiplex_complete pick pick_sound xss
                  sched tr w Hr Hf) as (Hq & Hd & _ & Hsent & _ & _).
    pose proof (run_moves _ pick_sound _ _ _ _ Hr) as Hm.
    pose proof (moves_running _ _ _ Hm) as Hrun.
    rewrite (final_consumers _ Hf), multiplex_eq in Hrun. simpl in Hrun.
    rewrite running_replicate, length_fmap in Hrun.
    assert (length (consumers w) = length xss) as Hlen.
    { clear -Hm. remember (multiplex _) as w0 eqn:Hw0.
      assert (length (consumers w0) = length xss) as H0.
      { subst w0. rewrite multiplex_eq. simpl.
        by rewrite length_replicate, length_fmap. }
      clear Hw0. induction Hm as [|w0 ev w1 tr w2 Hm1 _ IH]; [done|].
      apply IH. by rewrite (moved_consumers_length _ _ _ Hm1). }
    assert (markers (enqueued tr).*2 = length xss) as Hn
      by (rewrite <- Hd; lia).
    repeat split; try done.
    + intros i xs Hi. by rewrite Hsent, Hi.
    + intros Hne. destruct (last (enqueued tr)) as [[i item]|] eqn:Hl.
      * pose proof (last_sent_by _ _ Hl) as Hs. simpl in Hs.
        rewrite Hsent in Hs. apply last_Some in Hl as [l Hl].
        rewrite Hl, fmap_app. change (last (l.*2 ++ [item]) = Some StopIteration).
        rewrite last_snoc. f_equal.
        destruct (xss !! i) as [xs|]; simpl in Hs; [|done].
        rewrite last_snoc in Hs. by simplify_eq.
      * apply last_None in Hl. rewrite Hl in Hn. simpl in Hn.
        destruct xss; [done|]. by simpl in Hn.
    + lia.
Qed.

End MultiplexProperties.

(** C5.  multiplex([]) creates no thread and no generator; the merged
    sequence it returns reports its end at the first pull, with no [get] to
    wait in, and yields nothing: no move at all can happen. *)
Theorem multiplex_no_sources {T E : Type} (pick : nat -> list gen_state -> option nat) :
  final (multiplex (T:=T) (E:=E) []) = true /\
  merged_next pick (multiplex (T:=T) (E:=E) []) = Ended /\
  (forall a, step pick a (multiplex (T:=T) (E:=E) []) = None) /\
  (forall sched,
     run pick sched (multiplex (T:=T) (E:=E) [])
     = match sched with
       | [] => Some ([], multiplex [])
       | _ :: _ => None
       end) /\
  yields (T:=T) (E:=E) [] = [].
Proof.
  assert (forall a, step pick a (multiplex (T:=T) (E:=E) []) = None) as Hstep.
  { intros [i|]; simpl; [done|]. by destruct (pick 0 []). }
  repeat split; try done.
  - unfold merged_next. simpl. by destruct (pick 0 []).
  - intros [|a sched]; [done|]. simpl. by rewrite Hstep.
Qed.

(** C1, the claim as it stands, fails: under the round-robin merge order,
    when the thread over [0, 1] has put all it has before the thread over
    [10, 11, 12] puts anything, multiplex yields [0, 1, 10, 11, 12] and not
    [0, 10, 1, 11, 12]. *)
Lemma multiplex_not_round_robin :
  ~ (forall sched tr w,
       run gen_cat sched
           (multiplex (T:=nat) (E:=unit)
                      [of_list [Obj 0; Obj 1]; of_list [Obj 10; Obj 11; Obj 12]])
         = Some (tr, w) ->
       final w = true ->
       yields tr = [Obj 0; Obj 10; Obj 1; Obj 11; Obj 12]).
Proof.
  intros H.
  destruct (run gen_cat
              [Thread 0; Thread 0; Thread 0; Thread 1; Thread 1; Thread 1; Thread 1;
               Next; Next; Next; Next; Next; Next; Next]
              (multiplex (T:=nat) (E:=unit)
                         [of_list [Obj 0; Obj 1]; of_list [Obj 10; Obj 11; Obj 12]]))
    as [[tr w]|] eqn:Hr; [|vm_compute in Hr; discriminate Hr].
  specialize (H _ _ _ Hr).
  vm_compute in Hr. injection Hr as <- <-.
  specialize (H eq_refl). vm_compute in H. discriminate H.
Qed.

Lemma multiplex_two_sources_witness :
  sound gen_cat /\
  match run gen_cat
            [Thread 0; Thread 1; Next; Thread 0; Next; Thread 0; Next;
             Thread 1; Thread 1; Next; Next; Thread 1; Next; Next]
            (multiplex (T:=nat) (E:=unit)
                       [of_list [Obj 0; Obj 1]; of_list [Obj 10; Obj 11; Obj 12]])
  with
  | Some (tr, w) =>
      length (yields tr) = 5 /\
      yields tr = Obj <$> (provenance tr).*2 /\
      from 0 (provenance tr) = [0; 1] /\
      from 1 (provenance tr) = [10; 11; 12] /\
      markers (dequeued tr) = 2
  | None => False
  end.
Proof.
  split; [exact gen_cat_sound|].
  pose proof (proj1 (multiplex_two_sources (E:=unit) gen_cat gen_cat_sound 0 1 10 11 12))
    as H.
  destruct (run gen_cat _ _) as [[tr w]|] eqn:Hr;
    [|vm_compute in Hr; discriminate Hr].
  apply (H _ _ _ Hr).
  vm_compute in Hr. injection Hr as <- <-. reflexivity.
Defined.

Lemma multiplex_three_sources_witness :
  sound gen_cat /\
  match run gen_cat
            [Thread 2; Thread 0; Thread 1; Next; Thread 0; Next; Next;
             Thread 2; Thread 0; Next; Next; Next]
            (multiplex (T:=nat) (E:=unit)
                       [of_list (Obj <$> [1; 2]); of_list (Obj <$> []);
                        of_list (Obj <$> [3])])
  with
  | Some (tr, w) =>
      final w = true /\
      length (yields tr) = 3 /\
      from 0 (provenance tr) = [1; 2] /\
      from 1 (provenance tr) = [] /\
      from 2 (provenance tr) = [3]
  | None => False
  end.
Proof.
  split; [exact gen_cat_sound|].
  pose proof (proj2 (multiplex_three_sources (E:=unit) gen_cat gen_cat_sound
                       [1; 2] [] [3])) as H.
  destruct (run gen_cat _ _) as [[tr w]|] eqn:Hr;
    [|vm_compute in Hr; discriminate Hr].
  destruct (H _ _ _ Hr) as (_ & _ & H').
  assert (final w = true) as Hf
    by (vm_compute in Hr; injection Hr as <- <-; reflexivity).
  destruct (H' Hf) as (Hl & _ & H0 & H1 & H2).
  exact (conj Hf (conj Hl (conj H0 (conj H1 H2)))).
Defined.

Lemma multiplex_single_source_witness :
  sound gen_cat /\
  match run gen_cat [Thread 0; Next; Thread 0; Thread 0; Next; Next]
            (multiplex (T:=nat) (E:=unit) [of_list (Obj <$> [7; 8])])
  with
  | Some (tr, w) => final w = true /\ yields tr = [Obj 7; Obj 8]
  | None => False
  end.
Proof.
  split; [exact gen_cat_sound|].
  pose proof (proj2 (multiplex_single_source (E:=unit) gen_cat gen_cat_sound [7; 8]))
    as H.
  destruct (run gen_cat _ _) as [[tr w]|] eqn:Hr;
    [|vm_compute in Hr; discriminate Hr].
  assert (final w = true) as Hf
    by (vm_compute in Hr; injection Hr as <- <-; reflexivity).
  exact (conj Hf (H _ _ _ Hr Hf)).
Defined.

(** C3, the claim as it stands, fails for the queue of multiplex: with
    the sources [0] and [10], once both threads are done the one queue has
    received two markers, and the item 10 after the first of them. *)
Lemma multiplex_queue_two_markers :
  ~ (forall sched tr w,
       run gen_cat sched
           (multiplex (T:=nat) (E:=unit) [of_list [Obj 0]; of_list [Obj 10]])
         = Some (tr, w) ->
       markers (enqueued tr).*2 <= 1 /\
       forall k, (enqueued tr).*2 !! k = Some StopIteration ->
                 S k = length (enqueued tr)).
Proof.
  intros H.
  destruct (run gen_cat [Thread 0; Thread 0; Thread 1; Thread 1]
              (multiplex (T:=nat) (E:=unit) [of_list [Obj 0]; of_list [Obj 10]]))
    as [[tr w]|] eqn:Hr; [|vm_compute in Hr; discriminate Hr].
  destruct (H _ _ _ Hr) as [Hm _].
  vm_compute in Hr. injection Hr as <- <-.
  vm_compute in Hm. lia.
Qed.

Lemma channel_markers_witness :
  sound gen_cat /\
  match run gen_cat
            [Thread 0; Thread 0; Thread 1; Thread 1; Next; Next; Next; Next]
            (multiplex (T:=nat) (E:=unit)
                       ((fun xs => of_list (Obj <$> xs)) <$> [[0]; [10]]))
  with
  | Some (tr, w) =>
      final w = true /\
      markers (enqueued tr).*2 = 2 /\
      (enqueued tr).*2 = [Obj 0; StopIteration; Obj 10; StopIteration] /\
      dequeued tr = (enqueued tr).*2 /\
      in_q w = []
  | None => False
  end.
Proof.
  split; [exact gen_cat_sound|].
  pose proof (proj2 (proj2 (channel_markers (E:=unit) gen_cat gen_cat_sound))
                [[0]; [10]]) as H.
  destruct (run gen_cat _ _) as [[tr w]|] eqn:Hr;
    [|vm_compute in Hr; discriminate Hr].
  assert (final w = true) as Hf
    by (vm_compute in Hr; injection Hr as <- <-; reflexivity).
  destruct (H _ _ _ Hr Hf) as (Hn & _ & _ & Hd & _ & Hq).
  assert ((enqueued tr).*2 = [Obj 0; StopIteration; Obj 10; StopIteration]) as He
    by (vm_compute in Hr; injection Hr as <- <-; reflexivity).
  exact (conj Hf (conj Hn (conj He (conj Hd Hq)))).
Defined.

(** * The properties of [genfrom_queue] and [sendto_queue] *)

(** C7.  A pull on genfrom_queue over a queue with an entry at its head
    takes that one entry out: an entry that is not the marker is yielded,
    the marker ends the generator and is never yielded as a value.  On the
    empty queue the pull waits in get.  Every further pull on the finished
    generator reports the end again, touches the queue no more and does not
    wait, whatever the queue holds. *)
Theorem genfrom_queue_pull {T : Type} :
  (forall (x : T) q,
     genfrom_queue_next Running (Obj x :: q) = (Yielded (Obj x), Running, q)) /\
  (forall q : list (pyobj T),
     genfrom_queue_next Running (StopIteration :: q) = (Ended, Finished, q)) /\
  genfrom_queue_next Running ([] : list (pyobj T)) = (Blocks, Running, []) /\
  (forall g (q : list (pyobj T)),
     (genfrom_queue_next g q).1.1 <> Yielded StopIteration) /\
  (forall n (q : list (pyobj T)),
     pull_n n Finished q = (replicate n Ended, Finished, q)) /\
  (forall (xs : list T) n (post : list (pyobj T)),
     pull_n (length xs + S n) Running ((Obj <$> xs) ++ StopIteration :: post)
     = ((Yielded ∘ Obj <$> xs) ++ replicate (S n) Ended, Finished, post)).
Proof.
  split; [done|]. split; [done|]. split; [done|]. split; [|split].
  - intros [] [|[|x] q]; simpl; discriminate.
  - apply pull_n_finished.
  - apply pull_n_run.
Qed.

(** C9.  genfrom_queue takes the class object StopIteration for the end
    wherever it meets it: when entry [k] of the queue is that object and no
    entry before it is, the generator yields exactly the first [k] entries
    and ends, leaving what follows entry [k] in the queue. *)
Theorem genfrom_queue_ends_at_StopIteration {T : Type} (q : list (pyobj T)) (k : nat) :
  q !! k = Some StopIteration ->
  (forall j, j < k -> q !! j <> Some StopIteration) ->
  genfrom_queue q = (take k q, Some (drop (S k) q)).
Proof.
  intros Hk Hbefore.
  rewrite <- (take_drop_middle q k StopIteration Hk) at 1.
  rewrite (no_marker_items (take k q)) at 1.
  - rewrite genfrom_queue_marker. f_equal. symmetry. apply no_marker_items.
    intros j Hj. rewrite length_take in Hj.
    rewrite lookup_take_lt by lia. apply Hbefore. lia.
  - intros j Hj. rewrite length_take in Hj.
    rewrite lookup_take_lt by lia. apply Hbefore. lia.
Qed.

Lemma genfrom_queue_ends_at_StopIteration_witness :
  [Obj 1; Obj 2; StopIteration; Obj 3; StopIteration] !! 2 = Some (@StopIteration nat) /\
  genfrom_queue [Obj 1; Obj 2; StopIteration; Obj 3; StopIteration]
  = ([Obj 1; Obj 2], Some [Obj 3; StopIteration]).
Proof.
  split; [reflexivity|].
  apply (genfrom_queue_ends_at_StopIteration
           [Obj 1; Obj 2; StopIteration; Obj 3; StopIteration] 2).
  - reflexivity.
  - intros [|[|j]] Hj; simpl; [discriminate|discriminate|lia].
Defined.

(** C10.  When genfrom_queue ends on a marker, all that was put after that
    marker stays in the queue; a second genfrom_queue over the same queue
    yields those entries in the order they were put, up to the next marker,
    and leaves what follows that one; when there is no further marker it
    yields all of them and waits. *)
Theorem genfrom_queue_leaves_rest {T : Type} (xs ys : list T) (post : list (pyobj T)) :
  (forall rest,
     genfrom_queue ((Obj <$> xs) ++ StopIteration :: rest) = (Obj <$> xs, Some rest)) /\
  genfrom_queue ((Obj <$> xs) ++ StopIteration :: (Obj <$> ys) ++ StopIteration :: post)
  = (Obj <$> xs, Some ((Obj <$> ys) ++ StopIteration :: post)) /\
  genfrom_queue ((Obj <$> ys) ++ StopIteration :: post) = (Obj <$> ys, Some post) /\
  genfrom_queue (Obj <$> ys) = (Obj <$> ys, None).
Proof.
  split; [intros rest; apply genfrom_queue_marker|].
  split; [apply genfrom_queue_marker|].
  split; [apply genfrom_queue_marker|apply genfrom_queue_waits].
Qed.

(** C4, the claim as it stands, fails: over a source that yields 1 and 2
    and then raises, sendto_queue leaves [1, 2] in the queue with no marker,
    and genfrom_queue over that queue yields 1 and 2 and waits. *)
Lemma sendto_queue_failure_no_marker :
  (StopIteration ∉ (sendto_queue (T:=nat) (failing [Obj 1; Obj 2] tt) []).1) /\
  genfrom_queue (sendto_queue (T:=nat) (failing [Obj 1; Obj 2] tt) []).1
  = ([Obj 1; Obj 2], None).
Proof.
  split; [|reflexivity].
  change (@StopIteration nat ∉ [Obj 1; Obj 2]). intros H.
  repeat (apply elem_of_cons in H as [H|H]; [discriminate H|]).
  by apply elem_of_nil in H.
Qed.

(** C4, as amended.  Over an upstream that yields the entries [l] and then
    raises [err], sendto_queue puts the entries of [l] in order and ends
    with [err] raised in its own thread: the statement that puts the marker
    is not reached, and no entry of the queue tells of the error.  When
    [l] is a list of items, genfrom_queue over that queue yields them and
    then waits in get. *)
Theorem sendto_queue_failure {T E : Type} (l : list (pyobj T)) (err : E)
    (thequeue : list (pyobj T)) (xs : list T) :
  sendto_queue (failing l err) thequeue = (thequeue ++ l, Raised err) /\
  genfrom_queue (sendto_queue (failing (Obj <$> xs) err) []).1 = (Obj <$> xs, None) /\
  (forall n,
     pull_n (length xs + S n) Running (sendto_queue (failing (Obj <$> xs) err) []).1
     = ((Yielded ∘ Obj <$> xs) ++ [Blocks], Running, [])).
Proof.
  split; [|split].
  - by rewrite sendto_queue_puts, puts_failing, ending_failing.
  - rewrite sendto_queue_puts, puts_failing. apply genfrom_queue_waits.
  - intros n. rewrite sendto_queue_puts, puts_failing. apply pull_n_blocks.
Qed.

(** * The consumer threads and [broadcast] *)

Lemma send_each_eq {T : Type} (item : pyobj T) sinks k :
  ConsThread.send_each item sinks k
  = ((fun c => ConsThread.send c item) <$> sinks,
     (fun j => (j, item)) <$> seq k (length sinks)).
Proof.
  revert k. induction sinks as [|c sinks IH]; intros k; csimpl; [done|].
  by rewrite IH.
Qed.

Lemma broadcast_eq {T : Type} (source : list (pyobj T)) sinks :
  ConsThread.broadcast source sinks
  = ((fun c => {| ConsThread.in_q := ConsThread.in_q c ++ source ++ [StopIteration] |})
       <$> sinks,
     flat_map (fun item => (fun j => (j, item)) <$> seq 0 (length sinks))
              (source ++ [StopIteration])).
Proof.
  revert sinks. induction source as [|item source IH]; intros sinks; csimpl.
  - rewrite send_each_eq, app_nil_r. done.
  - rewrite send_each_eq, IH, length_fmap. f_equal.
    rewrite <- list_fmap_compose. apply list_fmap_ext. intros _ c _. simpl.
    unfold put. by rewrite <- app_assoc.
Qed.

(** C8.  For every list of items [src] and every number [n] of new sinks,
    broadcast(src, sinks) sends each element of [src] to sink 0, then
    sink 1, up to sink n-1, before it goes on to the next element, and
    after the last element sends the marker to every sink once; the queue
    of every sink then holds the elements of [src] and the marker, and the
    sequence every sink's target sees is [src] exactly. *)
Theorem broadcast_fidelity {T : Type} (src : list T) (n : nat) :
  (ConsThread.broadcast (Obj <$> src) (replicate n ConsThread.init)).2
  = flat_map (fun item => (fun j => (j, item)) <$> seq 0 n)
             ((Obj <$> src) ++ [StopIteration]) /\
  length (ConsThread.broadcast (Obj <$> src) (replicate n ConsThread.init)).1 = n /\
  Forall (fun c => ConsThread.in_q c = (Obj <$> src) ++ [StopIteration] /\
                   ConsThread.run c = (Obj <$> src, Some []))
         (ConsThread.broadcast (Obj <$> src) (replicate n ConsThread.init)).1.
Proof.
  rewrite broadcast_eq. simpl. rewrite length_replicate, length_fmap, length_replicate.
  split; [done|]. split; [done|].
  rewrite fmap_replicate. apply Forall_replicate. simpl. split; [done|].
  unfold ConsThread.run. simpl. apply genfrom_queue_marker.
Qed.

(** * More on [genfrom_queue] and [sendto_queue] *)

(** The run of genfrom_queue loses, repeats and reorders nothing: the
    queue is the entries yielded, then the marker and what is left behind
    it when the run ended on a marker; and the marker is never among the
    entries yielded. *)
Theorem genfrom_queue_conserves {T : Type} (q : list (pyobj T)) :
  (StopIteration ∉ (genfrom_queue q).1) /\
  q = (genfrom_queue q).1
      ++ match (genfrom_queue q).2 with
         | Some rest => StopIteration :: rest
         | None => []
         end.
Proof.
  induction q as [|[|x] q [IH1 IH2]]; simpl.
  - split; [apply not_elem_of_nil|done].
  - split; [apply not_elem_of_nil|done].
  - destruct (genfrom_queue q) as [ys r]. simpl in *. split.
    + apply not_elem_of_cons. by split.
    + by f_equal.
Qed.

(** What genfrom_queue has yielded does not depend on what is put later:
    over a queue [q1] to which [q2] is added, a run that ended on a marker
    of [q1] yields the same and leaves [q2] behind what it left, and a run
    that was waiting goes on with the run over [q2]. *)
Theorem genfrom_queue_later_puts {T : Type} (q1 q2 : list (pyobj T)) :
  genfrom_queue (q1 ++ q2) =
  match genfrom_queue q1 with
  | (ys, Some rest) => (ys, Some (rest ++ q2))
  | (ys, None) => (ys ++ (genfrom_queue q2).1, (genfrom_queue q2).2)
  end.
Proof.
  rewrite genfrom_queue_app. destruct (genfrom_queue q1) as [ys [rest|]]; [done|].
  by destruct (genfrom_queue q2).
Qed.

(** Pull by pull, the generator gives what its whole run gives: over any
    queue, as many pulls as the run yields entries yield them in order;
    the pulls after that all report the end when the run ended on a
    marker, and the next pull waits in get when it did not. *)
Theorem pull_n_genfrom_queue {T : Type} (q : list (pyobj T)) (n : nat) :
  pull_n (length (genfrom_queue q).1 + S n) Running q =
  match (genfrom_queue q).2 with
  | Some rest =>
      ((Yielded <$> (genfrom_queue q).1) ++ replicate (S n) Ended, Finished, rest)
  | None => ((Yielded <$> (genfrom_queue q).1) ++ [Blocks], Running, [])
  end.
Proof.
  induction q as [|[|x] q IH].
  - done.
  - simpl. by rewrite pull_n_finished.
  - simpl. destruct (genfrom_queue q) as [ys r]. simpl in *. rewrite IH.
    by destruct r.
Qed.

(** sendto_queue only appends: whatever the queue holds stays at its
    front, the entries of the source follow in its order, and the marker
    comes last; the call grows the queue by the length of the source plus
    one. *)
Theorem sendto_queue_appends {T E : Type} (l thequeue : list (pyobj T)) :
  sendto_queue (of_list (E:=E) l) thequeue = (thequeue ++ l ++ [StopIteration], Returned) /\
  length (sendto_queue (of_list (E:=E) l) thequeue).1 = length thequeue + length l + 1.
Proof.
  rewrite sendto_queue_puts, puts_of_list, ending_of_list. split; [done|].
  simpl. rewrite !length_app. simpl. lia.
Qed.

(** Two sendto_queue calls into one queue, one after the other, and two
    genfrom_queue runs over it: the first run yields the items of the
    first source and leaves those of the second with their marker, the
    second run yields the items of the second source and leaves the queue
    empty. *)
Theorem two_feeds_two_runs {T E : Type} (xs ys : list T) :
  (sendto_queue (of_list (E:=E) (Obj <$> ys))
                (sendto_queue (of_list (E:=E) (Obj <$> xs)) []).1).1
  = (Obj <$> xs) ++ [StopIteration] ++ (Obj <$> ys) ++ [StopIteration] /\
  genfrom_queue ((Obj <$> xs) ++ [StopIteration] ++ (Obj <$> ys) ++ [StopIteration])
  = (Obj <$> xs, Some ((Obj <$> ys) ++ [StopIteration])) /\
  genfrom_queue ((Obj <$> ys) ++ [StopIteration]) = (Obj <$> ys, Some []).
Proof.
  rewrite !sendto_queue_puts, !puts_of_list. simpl.
  split; [by rewrite <- app_assoc|].
  split; apply genfrom_queue_marker.
Qed.

(** * The consumers of the examples *)

Section ExamplesFacts.
Import Examples.
Local Open Scope string_scope.
Local Open Scope list_scope.
Implicit Types (l : logline) (ls : list logline).
Implicit Types (log : list (pyobj (gmap string value))).

Lemma print_r404_records_cons l log :
  print_r404_records (Obj (to_dict l) :: log) =
  if (status l =? 404)%Z
  then ([VStr (host l); VStr (datetime l); VStr (request l)]
          :: (print_r404_records log).1, (print_r404_records log).2)
  else print_r404_records log.
Proof.
  change (print_r404_records (Obj (to_dict l) :: log)) with
    (if (status l =? 404)%Z
     then let '(out, how) := print_r404_records log in
          ([VStr (host l); VStr (datetime l); VStr (request l)] :: out, how)
     else print_r404_records log).
  by destruct (print_r404_records log).
Qed.

Lemma find_404_records_cons l log :
  find_404_records (Obj (to_dict l) :: log) =
  if (status l =? 404)%Z
  then ([VInt (status l); VStr (datetime l); VStr (request l)]
          :: (find_404_records log).1, (find_404_records log).2)
  else find_404_records log.
Proof.
  change (find_404_records (Obj (to_dict l) :: log)) with
    (if (status l =? 404)%Z
     then let '(out, how) := find_404_records log in
          ([VInt (status l); VStr (datetime l); VStr (request l)] :: out, how)
     else find_404_records log).
  by destruct (find_404_records log).
Qed.

Lemma bytes_transferred_records_cons total l log :
  bytes_transferred_records total (Obj (to_dict l) :: log) =
  ([VStr "Total bytes"; VInt (total + bytes l)]
     :: (bytes_transferred_records (total + bytes l) log).1,
   (bytes_transferred_records (total + bytes l) log).2).
Proof.
  change (bytes_transferred_records total (Obj (to_dict l) :: log)) with
    (let '(out, how) := bytes_transferred_records (total + bytes l) log in
     ([VStr "Total bytes"; VInt (total + bytes l)] :: out, how)).
  by destruct (bytes_transferred_records (total + bytes l) log).
Qed.

(** Over records that have their fields, followed by anything. *)
Lemma print_r404_records_app ls log :
  print_r404_records ((Obj ∘ to_dict <$> ls) ++ log) =
  (((fun l => [VStr (host l); VStr (datetime l); VStr (request l)])
      <$> filter (fun l => status l = 404%Z) ls) ++ (print_r404_records log).1,
   (print_r404_records log).2).
Proof.
  induction ls as [|l ls IH]; [csimpl; by destruct (print_r404_records log)|].
  rewrite fmap_cons, <- app_comm_cons.
  change ((Obj ∘ to_dict) l) with (Obj (to_dict l)).
  rewrite print_r404_records_cons, IH, filter_cons.
  destruct (Z.eqb_spec (status l) 404); case_decide; done.
Qed.

Lemma find_404_records_app ls log :
  find_404_records ((Obj ∘ to_dict <$> ls) ++ log) =
  (((fun l => [VInt 404; VStr (datetime l); VStr (request l)])
      <$> filter (fun l => status l = 404%Z) ls) ++ (find_404_records log).1,
   (find_404_records log).2).
Proof.
  induction ls as [|l ls IH]; [csimpl; by destruct (find_404_records log)|].
  rewrite fmap_cons, <- app_comm_cons.
  change ((Obj ∘ to_dict) l) with (Obj (to_dict l)).
  rewrite find_404_records_cons, IH, filter_cons.
  destruct (Z.eqb_spec (status l) 404) as [Heq|]; case_decide; try done.
  csimpl. by rewrite Heq.
Qed.

Lemma bytes_transferred_records_app ls total log :
  bytes_transferred_records total ((Obj ∘ to_dict <$> ls) ++ log) =
  ((bytes_transferred_records total (Obj ∘ to_dict <$> ls)).1
     ++ (bytes_transferred_records (total + foldr Z.add 0%Z (bytes <$> ls)) log).1,
   (bytes_transferred_records (total + foldr Z.add 0%Z (bytes <$> ls)) log).2).
Proof.
  revert total. induction ls as [|l ls IH]; intros total.
  - csimpl. rewrite Z.add_0_r. by destruct (bytes_transferred_records total log).
  - rewrite !fmap_cons, <- app_comm_cons.
    change ((Obj ∘ to_dict) l) with (Obj (to_dict l)).
    rewrite !bytes_transferred_records_cons, IH. csimpl.
    by rewrite Z.add_assoc.
Qed.

Lemma bytes_transferred_records_totals ls total :
  (bytes_transferred_records total (Obj ∘ to_dict <$> ls)).2 = Returned /\
  length (bytes_transferred_records total (Obj ∘ to_dict <$> ls)).1 = length ls /\
  forall k, k < length ls ->
    (bytes_transferred_records total (Obj ∘ to_dict <$> ls)).1 !! k
    = Some [VStr "Total bytes";
            VInt (total + foldr Z.add 0%Z (bytes <$> take (S k) ls))].
Proof.
  revert total. induction ls as [|l ls IH]; intros total.
  - split; [done|]. split; [done|]. intros k Hk. simpl in Hk. lia.
  - rewrite fmap_cons. change ((Obj ∘ to_dict) l) with (Obj (to_dict l)).
    rewrite bytes_transferred_records_cons. csimpl.
    destruct (IH (total + bytes l)%Z) as (H1 & H2 & H3).
    split; [done|]. split; [by rewrite H2|].
    intros [|k] Hk; csimpl.
    + by rewrite Z.add_0_r.
    + simpl in Hk. rewrite H3 by lia. by rewrite Z.add_assoc.
Qed.

Lemma in_q_sends {T : Type} (c : ConsThread.ConsumerThread T) (l : list (pyobj T)) :
  ConsThread.in_q (foldl ConsThread.send c l) = ConsThread.in_q c ++ l.
Proof.
  revert c. induction l as [|item l IH]; intros c; simpl.
  - by rewrite app_nil_r.
  - rewrite IH. simpl. unfold put. by rewrite <- app_assoc.
Qed.

End ExamplesFacts.

Section ExamplesProperties.
Import Examples.
Local Open Scope string_scope.
Local Open Scope list_scope.
Implicit Types (l : logline) (ls : list logline).
Implicit Types (r : gmap string value).
Implicit Types (log rest : list (pyobj (gmap string value))).

Lemma genfrom_queue_records ls :
  genfrom_queue ((Obj ∘ to_dict <$> ls) ++ [StopIteration])
  = (Obj ∘ to_dict <$> ls, Some []).
Proof. rewrite list_fmap_compose. apply genfrom_queue_marker. Qed.

Lemma genfrom_queue_records_then r ls rest :
  genfrom_queue ((Obj ∘ to_dict <$> ls) ++ Obj r :: rest)
  = ((Obj ∘ to_dict <$> ls) ++ Obj r :: (genfrom_queue rest).1, (genfrom_queue rest).2).
Proof.
  rewrite genfrom_queue_app, list_fmap_compose, genfrom_queue_waits. simpl.
  by destruct (genfrom_queue rest).
Qed.

(** print_r404 over the queue that sendto_queue has filled from a log of
    records prints host, datetime and request of exactly the records whose
    status is 404, in the order of the log, and its loop ends; over the
    same records without the marker it prints the same lines and waits. *)
Theorem print_r404_prints_the_404s {E : Type} ls :
  print_r404 (sendto_queue (of_list (E:=E) (Obj ∘ to_dict <$> ls)) []).1
  = ((fun l => [VStr (host l); VStr (datetime l); VStr (request l)])
       <$> filter (fun l => status l = 404%Z) ls, Done) /\
  print_r404 (Obj ∘ to_dict <$> ls)
  = ((fun l => [VStr (host l); VStr (datetime l); VStr (request l)])
       <$> filter (fun l => status l = 404%Z) ls, Waiting).
Proof.
  unfold print_r404, for_loop. split.
  - rewrite sendto_queue_puts, puts_of_list. simpl.
    rewrite genfrom_queue_records. simpl.
    rewrite <- (app_nil_r (Obj ∘ to_dict <$> ls)), print_r404_records_app.
    simpl. by rewrite app_nil_r.
  - rewrite list_fmap_compose, genfrom_queue_waits, <- list_fmap_compose. simpl.
    rewrite <- (app_nil_r (Obj ∘ to_dict <$> ls)), print_r404_records_app.
    simpl. by rewrite app_nil_r.
Qed.

(** A record without a status field makes print_r404 raise KeyError: the
    lines of the 404 records before it have been printed, nothing of what
    follows it is. *)
Theorem print_r404_missing_status ls r rest :
  r !! "status" = None ->
  print_r404 ((Obj ∘ to_dict <$> ls) ++ Obj r :: rest)
  = ((fun l => [VStr (host l); VStr (datetime l); VStr (request l)])
       <$> filter (fun l => status l = 404%Z) ls, Failed (KeyError "status")).
Proof.
  intros Hr. unfold print_r404, for_loop.
  rewrite genfrom_queue_records_then. simpl.
  rewrite print_r404_records_app. simpl. rewrite Hr. simpl.
  by rewrite app_nil_r.
Qed.

Lemma print_r404_missing_status_witness :
  delete "status" (to_dict {| host := "h"; datetime := "d"; request := "GET /";
                              status := 404; bytes := 10 |}) !! "status" = None /\
  print_r404
    ((Obj ∘ to_dict <$> [ {| host := "a"; datetime := "t0"; request := "GET /x";
                             status := 404; bytes := 1 |} ])
       ++ Obj (delete "status"
                 (to_dict {| host := "h"; datetime := "d"; request := "GET /";
                             status := 404; bytes := 10 |}))
       :: [StopIteration])
  = ([[VStr "a"; VStr "t0"; VStr "GET /x"]], Failed (KeyError "status")).
Proof.
  split; [reflexivity|].
  apply (print_r404_missing_status
           [ {| host := "a"; datetime := "t0"; request := "GET /x";
                status := 404; bytes := 1 |} ]).
  reflexivity.
Defined.

(** What is sent to a ConsumerThread is what its target is handed, in the
    order sent: while no marker has been sent the target gets the items
    and waits for more; once the marker has been sent its sequence ends
    there, and what is sent later stays in the queue. *)
Theorem consumer_thread_sees_sends {T : Type} (xs : list T) (later : list (pyobj T)) :
  ConsThread.run (foldl ConsThread.send ConsThread.init (Obj <$> xs))
  = (Obj <$> xs, None) /\
  ConsThread.run (foldl ConsThread.send ConsThread.init
                        ((Obj <$> xs) ++ StopIteration :: later))
  = (Obj <$> xs, Some later).
Proof.
  unfold ConsThread.run. rewrite !in_q_sends. simpl.
  split; [apply genfrom_queue_waits|apply genfrom_queue_marker].
Qed.

(** bytes_transferred in a ConsumerThread that is sent a log of records
    and then the marker prints one line per record, line [k] with the sum
    of the bytes of the records up to [k], and its loop ends. *)
Theorem bytes_transferred_running_totals ls :
  (bytes_transferred
     (ConsThread.run (foldl ConsThread.send ConsThread.init
                            ((Obj ∘ to_dict <$> ls) ++ [StopIteration])))).2 = Done /\
  length (bytes_transferred
            (ConsThread.run (foldl ConsThread.send ConsThread.init
                                   ((Obj ∘ to_dict <$> ls) ++ [StopIteration])))).1
  = length ls /\
  (forall k, k < length ls ->
     (bytes_transferred
        (ConsThread.run (foldl ConsThread.send ConsThread.init
                               ((Obj ∘ to_dict <$> ls) ++ [StopIteration])))).1 !! k
     = Some [VStr "Total bytes"; VInt (foldr Z.add 0%Z (bytes <$> take (S k) ls))]).
Proof.
  unfold ConsThread.run. rewrite in_q_sends. simpl.
  rewrite genfrom_queue_records. unfold bytes_transferred, for_loop. simpl.
  destruct (bytes_transferred_records_totals ls 0) as (H1 & H2 & H3).
  destruct (bytes_transferred_records 0 (Obj ∘ to_dict <$> ls)) as [out how].
  simpl in *. subst how. split; [done|]. split; [done|].
  intros k Hk. rewrite (H3 k Hk). by rewrite Z.add_0_l.
Qed.

(** A record whose bytes field is missing or holds a string stops
    bytes_transferred with KeyError or TypeError: the totals of the
    records before it have been printed, no line is printed for it or for
    what follows. *)
Theorem bytes_transferred_bad_record ls r rest (after : option (list (pyobj (gmap string value)))) :
  (forall z, r !! "bytes" <> Some (VInt z)) ->
  bytes_transferred ((Obj ∘ to_dict <$> ls) ++ Obj r :: rest, after)
  = ((bytes_transferred (Obj ∘ to_dict <$> ls, after)).1,
     Failed (match r !! "bytes" with
             | None => KeyError "bytes"
             | Some _ => TypeError
             end)).
Proof.
  intros Hr. unfold bytes_transferred, for_loop. simpl.
  rewrite bytes_transferred_records_app. simpl.
  destruct (bytes_transferred_records 0 (Obj ∘ to_dict <$> ls)) as [out how].
  simpl. destruct (r !! "bytes") as [[z|s]|] eqn:Hb; simpl.
  - by destruct (Hr z).
  - by rewrite app_nil_r.
  - by rewrite app_nil_r.
Qed.

Lemma bytes_transferred_bad_record_witness :
  (forall z, <["bytes" := VStr "-"]> (∅ : gmap string value) !! "bytes" <> Some (VInt z)) /\
  bytes_transferred
    ((Obj ∘ to_dict <$> [ {| host := "a"; datetime := "t0"; request := "GET /x";
                             status := 200; bytes := 7 |} ])
       ++ Obj (<["bytes" := VStr "-"]> ∅) :: [], None)
  = ([[VStr "Total bytes"; VInt 7]], Failed TypeError).
Proof.
  assert (forall z, <["bytes" := VStr "-"]> (∅ : gmap string value) !! "bytes"
                    <> Some (VInt z)) as H by (intros z; discriminate).
  split; [exact H|].
  exact (bytes_transferred_bad_record
           [ {| host := "a"; datetime := "t0"; request := "GET /x";
                status := 200; bytes := 7 |} ] _ [] None H).
Defined.

(** find_404 in a ConsumerThread that is sent a log of records and then
    the marker prints status, datetime and request of exactly the records
    whose status is 404, in the order sent, never more lines than records,
    and its loop ends. *)
Theorem find_404_prints_the_404s ls :
  find_404 (ConsThread.run (foldl ConsThread.send ConsThread.init
                                  ((Obj ∘ to_dict <$> ls) ++ [StopIteration])))
  = ((fun l => [VInt 404; VStr (datetime l); VStr (request l)])
       <$> filter (fun l => status l = 404%Z) ls, Done) /\
  length (find_404 (ConsThread.run (foldl ConsThread.send ConsThread.init
                                          ((Obj ∘ to_dict <$> ls) ++ [StopIteration])))).1
  <= length ls.
Proof.
  unfold ConsThread.run. rewrite in_q_sends. simpl.
  rewrite genfrom_queue_records. unfold find_404, for_loop. simpl.
  rewrite <- (app_nil_r (Obj ∘ to_dict <$> ls)), find_404_records_app.
  simpl. rewrite app_nil_r. split; [done|].
  rewrite length_fmap. apply length_filter.
Qed.

End ExamplesProperties.

(** * More on the runs of [multiplex] *)

Lemma sum_list_with_lookup_from {A} (f : A -> nat) (d : A) (l : list A) (a : nat) :
  sum_list_with (fun i => f (default d (l !! (i - a)))) (seq a (length l))
  = sum_list_with f l.
Proof.
  revert a. induction l as [|x l IH]; intros a; simpl; [done|].
  rewrite Nat.sub_diag. simpl. f_equal. rewrite <- (IH (S a)).
  apply sum_list_with_ext. intros i [Hi _]%elem_of_seq.
  replace (i - a) with (S (i - S a)) by lia. done.
Qed.

Lemma sum_list_with_lookup {A} (f : A -> nat) (d : A) (l : list A) :
  sum_list_with (fun i => f (default d (l !! i))) (seq 0 (length l))
  = sum_list_with f l.
Proof.
  rewrite <- (sum_list_with_lookup_from f d l 0).
  apply sum_list_with_ext. intros i _. by rewrite Nat.sub_0_r.
Qed.

Lemma sum_list_with_fmap {A B} (f : B -> nat) (g : A -> B) (l : list A) :
  sum_list_with f (g <$> l) = sum_list_with (f ∘ g) l.
Proof. induction l as [|x l IH]; csimpl; [done|]. by rewrite IH. Qed.

Lemma run_length {T E : Type} pick sched (w : world T E) tr w' :
  run pick sched w = Some (tr, w') -> length tr = length sched.
Proof.
  revert w tr. induction sched as [|a sched IH]; intros w tr H; simpl in H.
  - by simplify_eq.
  - destruct (step pick a w) as [[ev w1]|]; [|done].
    destruct (run pick sched w1) as [[tr1 w2]|] eqn:Hr; [|done].
    simplify_eq. simpl. f_equal. by eapply IH.
Qed.

Section MoreMultiplex.
Context {T E : Type}.
Variable pick : nat -> list gen_state -> option nat.
Hypothesis pick_sound : sound pick.
Implicit Types (w : world T E) (tr : list (event T E)) (sched : list action).
Implicit Types (sources : list (upstream T E)).

Lemma fuel_multiplex sources :
  fuel (multiplex sources)
  = sum_list_with (fun s => 2 * length (sendto_queue s []).1 + 1) sources.
Proof.
  rewrite multiplex_eq. unfold fuel. simpl. rewrite Nat.add_0_r.
  rewrite sum_list_with_fmap. apply sum_list_with_ext. intros s _.
  unfold weight. simpl. by rewrite sendto_queue_puts.
Qed.

Lemma pend_multiplex sources i :
  pend i (multiplex sources)
  = from_option (fun s => (sendto_queue s []).1) [] (sources !! i).
Proof.
  rewrite multiplex_eq. unfold pend. simpl. rewrite list_lookup_fmap.
  destruct (sources !! i) as [s|]; [|done]. simpl. by rewrite sendto_queue_puts.
Qed.

(** For any number of sources that are lists of items, multiplex runs to
    the end under every schedule: runs are bounded, a run that is not at
    its end can go on, a run to the end exists; and a run to the end
    yields as many items as the sources hold together, the items of each
    source in that source's order, and leaves the queue empty. *)
Theorem multiplex_any_number_of_sources (xss : list (list T)) :
  (exists sched tr w,
     run pick sched (multiplex ((fun xs => of_list (E:=E) (Obj <$> xs)) <$> xss))
       = Some (tr, w) /\ final w = true) /\
  (forall sched tr w,
     run pick sched (multiplex ((fun xs => of_list (E:=E) (Obj <$> xs)) <$> xss))
       = Some (tr, w) ->
     length sched <= sum_list_with (fun xs => 2 * length xs + 3) xss /\
     (final w = false -> exists a ev w', step pick a w = Some (ev, w')) /\
     (final w = true ->
      length (yields tr) = sum_list_with length xss /\
      yields tr = Obj <$> (provenance tr).*2 /\
      (forall i xs, xss !! i = Some xs -> from i (provenance tr) = xs) /\
      in_q w = [])).
Proof.
  split; [apply (multiplex_completes pick pick_sound)|].
  intros sched tr w Hr. split; [|split].
  - pose proof (multiplex_bounded pick pick_sound xss sched tr w Hr) as Hb.
    rewrite fuel_multiplex, sum_list_with_fmap in Hb.
    erewrite sum_list_with_ext in Hb; [exact Hb|].
    intros xs _. simpl. rewrite sendto_queue_puts, puts_of_list. simpl.
    rewrite length_app, length_fmap. simpl. lia.
  - intros Hf. apply progress; [done| |done].
    eapply moves_balanced; [by eapply run_moves|]. apply multiplex_balanced.
  - intros Hf.
    destruct (multiplex_complete pick pick_sound xss sched tr w Hr Hf)
      as (Hq & _ & Hy & _ & Hfrom & Hl).
    split; [by rewrite Hl, (sum_list_with_lookup length [] xss)|].
    split; [done|]. split; [|done].
    intros i xs Hi. by rewrite Hfrom, Hi.
Qed.

(** Whatever the sources do, at every moment of a run of multiplex: the
    entries put into the queue are, in order, those taken out and those
    still in it; the merged sequence has yielded the entries taken out
    that are not the marker, in that order; what thread [i] has put is a
    beginning of what sendto_queue over its source puts, and all of it
    once the thread is gone; and the run is no longer than a bound. *)
Theorem multiplex_queue_invariant sources sched tr w :
  run pick sched (multiplex sources) = Some (tr, w) ->
  (enqueued tr).*2 = dequeued tr ++ in_q w /\
  yields tr = Obj <$> items (dequeued tr) /\
  (forall i s, sources !! i = Some s ->
     sent_by i tr `prefix_of` (sendto_queue s []).1 /\
     (forall how, threads w !! i = Some (Exited how) ->
                  sent_by i tr = (sendto_queue s []).1)) /\
  length (consumers w) = length sources /\
  length sched <= sum_list_with (fun s => 2 * length (sendto_queue s []).1 + 1) sources.
Proof.
  intros Hr. pose proof (run_moves _ pick_sound _ _ _ _ Hr) as Hm.
  split; [|split; [|split; [|split]]].
  - pose proof (moves_fifo _ _ _ Hm) as Hf. by rewrite multiplex_eq in Hf.
  - by eapply moves_yields.
  - intros i s Hi. pose proof (moves_sent_by _ _ _ i Hm) as Hs.
    rewrite pend_multiplex, Hi in Hs. simpl in Hs. split.
    + by exists (pend i w).
    + intros how Hw. unfold pend in Hs. rewrite Hw in Hs. simpl in Hs.
      by rewrite app_nil_r in Hs.
  - clear Hr. remember (multiplex sources) as w0 eqn:Hw0.
    assert (length (consumers w0) = length sources) as H0.
    { subst w0. rewrite multiplex_eq. simpl. by rewrite length_replicate. }
    clear Hw0. induction Hm as [|w0 ev w1 tr w2 Hm1 _ IH]; [done|].
    apply IH. by rewrite (moved_consumers_length _ _ _ Hm1).
  - rewrite <- fuel_multiplex, <- (run_length _ _ _ _ _ Hr).
    apply moves_fuel in Hm. lia.
Qed.

End MoreMultiplex.

Lemma multiplex_queue_invariant_witness :
  match run gen_cat [Thread 1; Thread 0; Next; Thread 1; Thread 0]
            (multiplex (T:=nat) (E:=unit)
                       [failing [Obj 1; Obj 2] tt; of_list [Obj 10]])
  with
  | Some (tr, w) =>
      (enqueued tr).*2 = dequeued tr ++ in_q w /\
      yields tr = [Obj 10] /\
      in_q w = [Obj 1; StopIteration; Obj 2]
  | None => False
  end.
Proof.
  pose proof (multiplex_queue_invariant (T:=nat) (E:=unit) gen_cat gen_cat_sound
                [failing [Obj 1; Obj 2] tt; of_list [Obj 10]]) as H.
  destruct (run gen_cat _ _) as [[tr w]|] eqn:Hr;
    [|vm_compute in Hr; discriminate Hr].
  destruct (H _ _ _ Hr) as (Hf & _).
  split; [exact Hf|].
  vm_compute in Hr. injection Hr as <- <-. split; reflexivity.
Defined.

Section Failure.
Import Sources.
Context {T E : Type}.
Variable pick : nat -> list gen_state -> option nat.
Hypothesis pick_sound : sound pick.
Implicit Types (w : world T E) (tr : list (event T E)) (sched : list action).
Implicit Types (specs : list (list T * option E)).

(** Markers and running generators go together: what a move adds to the
    one it adds to the other. *)
Lemma moved_markers w ev w' :
  moved w ev w' ->
  markers (in_q w) + sum_list_with (fun t => markers (pending t)) (threads w)
    + running (consumers w')
  = markers (in_q w') + sum_list_with (fun t => markers (pending t)) (threads w')
    + running (consumers w).
Proof.
  destruct 1 as [w i t item t' Hi _ Hp|w i t err Hi _ Hp|w j x q c Hq _|w j q c Hq Hj];
    simpl.
  - pose proof (sum_list_with_insert (fun t => markers (pending t)) _ _ _ t' Hi) as Hs.
    set (f := fun t : thread T E => markers (pending t)) in *.
    assert (f t = marker item + f t') as Hf by (unfold f; by rewrite Hp).
    rewrite markers_app. change (markers [item]) with (marker item + 0). lia.
  - pose proof (sum_list_with_insert (fun t => markers (pending t)) _ _ _
                  (Exited (Raised err)) Hi) as Hs.
    set (f := fun t : thread T E => markers (pending t)) in *.
    assert (f t = 0) as Hf by (unfold f; by rewrite Hp).
    assert (f (Exited (Raised err)) = 0) as Hf' by done.
    lia.
  - rewrite Hq. by change (markers (Obj x :: q)) with (markers q).
  - rewrite Hq, (running_insert_finished _ _ Hj).
    change (markers (StopIteration :: q)) with (S (markers q)). lia.
Qed.

Lemma moves_markers w tr w' :
  moves w tr w' ->
  markers (in_q w) + sum_list_with (fun t => markers (pending t)) (threads w)
    + running (consumers w')
  = markers (in_q w') + sum_list_with (fun t => markers (pending t)) (threads w')
    + running (consumers w).
Proof.
  induction 1 as [|w ev w1 tr w2 Hm _ IH]; [done|].
  apply moved_markers in Hm. lia.
Qed.

Lemma items_puts_iterator (s : list T * option E) : items (puts (iterator s)) = s.1.
Proof.
  destruct s as [xs [err|]]; unfold iterator; simpl.
  - by rewrite puts_failing, items_Obj.
  - by rewrite puts_of_list, items_app, items_Obj, app_nil_r.
Qed.

Lemma markers_puts_iterator (s : list T * option E) :
  markers (puts (iterator s)) = match s.2 with Some _ => 0 | None => 1 end.
Proof.
  destruct s as [xs [err|]]; unfold iterator; simpl.
  - by rewrite puts_failing, markers_Obj.
  - by rewrite puts_of_list, markers_app, markers_Obj.
Qed.

Lemma owed_le specs :
  sum_list_with (fun s => markers (puts (iterator s))) specs <= length specs.
Proof.
  induction specs as [|s specs IH]; simpl; [done|].
  rewrite markers_puts_iterator. destruct (s.2); lia.
Qed.

Lemma owed_lt specs k xs err :
  specs !! k = Some (xs, Some err) ->
  sum_list_with (fun s => markers (puts (iterator s))) specs < length specs.
Proof.
  revert k. induction specs as [|s specs IH]; intros [|k] Hk; simplify_eq/=.
  - rewrite markers_puts_iterator. simpl. pose proof (owed_le specs). lia.
  - specialize (IH _ Hk). rewrite markers_puts_iterator. destruct (s.2); lia.
Qed.

(** With a failing source some generator is running at every moment. *)
Lemma failure_running specs k xs err tr w :
  specs !! k = Some (xs, Some err) ->
  moves (multiplex (iterator <$> specs)) tr w ->
  0 < running (consumers w).
Proof.
  intros Hk Hm. apply moves_markers in Hm. rewrite multiplex_eq in Hm.
  simpl in Hm. rewrite length_fmap, running_replicate, !sum_list_with_fmap in Hm.
  change (markers []) with 0 in Hm.
  pose proof (owed_lt specs k xs err Hk) as Hlt.
  erewrite (sum_list_with_ext _ (fun s => markers (puts (iterator s)))) in Hm by done.
  lia.
Qed.

Lemma first_alive_Some (thrs : list (thread T E)) i :
  first_alive thrs = Some i -> exists s, thrs !! i = Some (Alive s).
Proof.
  revert i. induction thrs as [|[s|how] thrs IH]; intros i H; simplify_eq/=.
  - by exists s.
  - destruct (first_alive thrs) as [j|]; simplify_eq/=. by apply IH.
Qed.

Lemma first_alive_None (thrs : list (thread T E)) :
  first_alive thrs = None -> forallb exited thrs = true.
Proof.
  induction thrs as [|[s|how] thrs IH]; intros H; simplify_eq/=; [done|].
  destruct (first_alive thrs); simplify_eq/=. by apply IH.
Qed.

Lemma exited_not_alive (thrs : list (thread T E)) i s :
  forallb exited thrs = true -> thrs !! i = Some (Alive s) -> False.
Proof.
  intros H Hi. rewrite forallb_forall in H.
  apply list_elem_of_lookup_2, list_elem_of_In, H in Hi. done.
Qed.

Lemma enabled_step w a :
  enabled pick w = Some a -> exists ev w', step pick a w = Some (ev, w').
Proof.
  unfold enabled. destruct (first_alive (threads w)) as [i|] eqn:Hi.
  - intros; simplify_eq. apply first_alive_Some in Hi as [s Hs].
    simpl. rewrite Hs. destruct (sendto_queue_step s (in_q w)). eauto.
  - destruct (step pick Next w) as [[ev w']|] eqn:Hs; intros; simplify_eq. eauto.
Qed.

Lemma enabled_None w :
  enabled pick w = None ->
  forallb exited (threads w) = true /\ forall a, step pick a w = None.
Proof.
  unfold enabled. destruct (first_alive (threads w)) as [i|] eqn:Hi; [done|].
  apply first_alive_None in Hi.
  destruct (step pick Next w) eqn:Hs; [done|]. intros _. split; [done|].
  intros [i|]; [|done]. simpl.
  destruct (threads w !! i) as [[s|how]|] eqn:Ht; try done.
  destruct (exited_not_alive _ _ _ Hi Ht).
Qed.

(** Every run can be carried on until no move is left. *)
Lemma quiesce w :
  exists sched tr w', run pick sched w = Some (tr, w') /\ enabled pick w' = None.
Proof.
  remember (fuel w) as n eqn:Hn. revert w Hn.
  induction n as [n IH] using lt_wf_ind. intros w ->.
  destruct (enabled pick w) as [a|] eqn:He.
  - destruct (enabled_step _ _ He) as (ev & w1 & Hs).
    pose proof (step_moved _ pick_sound _ _ _ _ Hs) as Hm.
    destruct (IH (fuel w1) (moved_fuel _ _ _ Hm) w1 eq_refl)
      as (sched & tr & w2 & Hr & Hsil).
    exists (a :: sched), (ev :: tr), w2. simpl. by rewrite Hs, Hr.
  - by exists [], [], w.
Qed.

(** With no move left and a generator running, the queue is empty and
    the merged sequence waits in get. *)
Lemma stuck_waits w :
  (forall a, step pick a w = None) -> 0 < running (consumers w) ->
  in_q w = [] /\ merged_next pick w = Blocks.
Proof.
  intros Hstuck Hrun. specialize (Hstuck Next). simpl in Hstuck.
  unfold merged_next.
  pose proof (pick_sound (cursor w) (consumers w)) as Hp.
  destruct (pick (cursor w) (consumers w)) as [j|].
  - rewrite Hp in *. simpl in *.
    destruct (in_q w) as [|[|x] q]; simpl in *; done.
  - assert (running (consumers w) = 0); [|lia].
    apply sum_list_with_zero. eapply Forall_impl; [exact Hp|]. by intros g ->.
Qed.

Lemma running_lookup (gs : list gen_state) :
  0 < running gs -> exists j, gs !! j = Some Running.
Proof.
  induction gs as [|[] gs IH]; intros H.
  - unfold running in H. simpl in H. lia.
  - by exists 0.
  - destruct IH as [j Hj]; [done|]. by exists (S j).
Qed.

Lemma exited_pend w i : forallb exited (threads w) = true -> pend i w = [].
Proof.
  intros H. unfold pend. destruct (threads w !! i) as [[s|how]|] eqn:Hi; try done.
  destruct (exited_not_alive _ _ _ H Hi).
Qed.

(** When all threads are gone and the queue is empty, all the items the
    sources gave have been yielded. *)
Lemma drained_yields specs tr w :
  moves (multiplex (iterator <$> specs)) tr w ->
  forallb exited (threads w) = true -> in_q w = [] ->
  yields tr = Obj <$> (provenance tr).*2 /\
  (forall i s, specs !! i = Some s -> from i (provenance tr) = s.1) /\
  length (yields tr) = sum_list_with (fun s => length s.1) specs.
Proof.
  intros Hm Hex Hq.
  pose proof (moves_fifo _ _ _ Hm) as Hfifo.
  rewrite Hq, app_nil_r, multiplex_eq in Hfifo. simpl in Hfifo.
  assert (yields tr = Obj <$> (provenance tr).*2) as Hy
    by (by rewrite (moves_yields _ _ _ Hm), provenance_items, Hfifo).
  assert (forall i, from i (provenance tr)
                    = (default ([], None) (specs !! i)).1) as Hfrom.
  { intros i. rewrite from_provenance.
    pose proof (moves_sent_by _ _ _ i Hm) as Hs.
    rewrite (exited_pend _ _ Hex), app_nil_r, multiplex_eq in Hs.
    unfold pend in Hs. simpl in Hs. rewrite !list_lookup_fmap in Hs.
    rewrite Hs. destruct (specs !! i) as [s|]; simpl; [|done].
    apply items_puts_iterator. }
  split; [done|]. split.
  - intros i s Hi. by rewrite Hfrom, Hi.
  - rewrite Hy, !length_fmap, (length_by_label (provenance tr) (length specs)).
    + rewrite <- (sum_list_with_lookup (fun s => length s.1) ([], None) specs).
      apply sum_list_with_ext. intros i _. rewrite <- Hfrom. unfold from.
      by rewrite length_fmap.
    + intros p Hp. pose proof (provenance_lt _ _ _ Hm p Hp) as Hlt.
      rewrite multiplex_eq in Hlt. simpl in Hlt. by rewrite !length_fmap in Hlt.
Qed.

(** When one of the sources of multiplex raises, the merged sequence
    never ends: at every moment of every run some generator is still
    running.  Every run can be carried on until no move is left, and then
    all threads are gone, the queue is empty, every item the sources gave
    before they ended or failed has been yielded, the items of each source
    in its order, and the merged sequence waits in get. *)
Theorem multiplex_hangs_on_failure specs k xs err :
  specs !! k = Some (xs, Some err) ->
  (forall sched tr w,
     run pick sched (multiplex (iterator <$> specs)) = Some (tr, w) ->
     final w = false /\
     (exists j, consumers w !! j = Some Running) /\
     exists sched' tr' w',
       run pick (sched ++ sched') (multiplex (iterator <$> specs))
         = Some (tr ++ tr', w') /\
       forall a, step pick a w' = None) /\
  (forall sched tr w,
     run pick sched (multiplex (iterator <$> specs)) = Some (tr, w) ->
     (forall a, step pick a w = None) ->
     forallb exited (threads w) = true /\
     in_q w = [] /\
     merged_next pick w = Blocks /\
     yields tr = Obj <$> (provenance tr).*2 /\
     (forall i s, specs !! i = Some s -> from i (provenance tr) = s.1) /\
     length (yields tr) = sum_list_with (fun s => length s.1) specs).
Proof.
  intros Hk. split.
  - intros sched tr w Hr.
    pose proof (run_moves _ pick_sound _ _ _ _ Hr) as Hm.
    pose proof (failure_running _ _ _ _ _ _ Hk Hm) as Hrun.
    split; [|split].
    + destruct (final w) eqn:Hf; [|done].
      apply final_consumers in Hf. lia.
    + by apply running_lookup.
    + destruct (quiesce w) as (sched' & tr' & w' & Hr' & Hsil).
      exists sched', tr', w'. split; [by eapply run_app|].
      by apply enabled_None.
  - intros sched tr w Hr Hstuck.
    pose proof (run_moves _ pick_sound _ _ _ _ Hr) as Hm.
    pose proof (failure_running _ _ _ _ _ _ Hk Hm) as Hrun.
    destruct (stuck_waits w Hstuck Hrun) as [Hq Hw].
    assert (forallb exited (threads w) = true) as Hex.
    { destruct (enabled pick w) as [a|] eqn:He.
      - destruct (enabled_step _ _ He) as (ev & w' & Hs). by rewrite Hstuck in Hs.
      - by apply enabled_None. }
    destruct (drained_yields specs tr w Hm Hex Hq) as (Hy & Hfrom & Hl).
    done.
Qed.

End Failure.

Lemma multiplex_hangs_on_failure_witness :
  [([1; 2], Some tt); ([10], None)] !! 0 = Some ([1; 2], Some tt) /\
  match run gen_cat [Thread 0; Thread 1; Thread 0; Thread 1; Thread 0;
                     Next; Next; Next; Next]
            (multiplex (T:=nat) (E:=unit)
                       (Sources.iterator <$> [([1; 2], Some tt); ([10], None)]))
  with
  | Some (tr, w) =>
      final w = false /\
      in_q w = [] /\
      merged_next gen_cat w = Blocks /\
      yields tr = [Obj 1; Obj 10; Obj 2]
  | None => False
  end.
Proof.
  split; [reflexivity|].
  pose proof (multiplex_hangs_on_failure (T:=nat) (E:=unit) gen_cat gen_cat_sound
                [([1; 2], Some tt); ([10], None)] 0 [1; 2] tt eq_refl) as [H1 H2].
  destruct (run gen_cat _ _) as [[tr w]|] eqn:Hr;
    [|vm_compute in Hr; discriminate Hr].
  destruct (H1 _ _ _ Hr) as (Hf & _).
  split; [exact Hf|].
  vm_compute in Hr. injection Hr as <- <-.
  split; [reflexivity|]. split; reflexivity.
Defined.

Lemma multiplex_any_number_of_sources_witness :
  sound gen_cat /\
  match run gen_cat [Thread 0; Thread 1; Thread 0; Next; Next; Next; Thread 1; Next]
            (multiplex (T:=nat) (E:=unit)
                       ((fun xs => of_list (Obj <$> xs)) <$> [[5]; [6]]))
  with
  | Some (tr, w) =>
      final w = true /\ length (yields tr) = 2 /\ in_q w = []
  | None => False
  end.
Proof.
  split; [exact gen_cat_sound|].
  pose proof (proj2 (multiplex_any_number_of_sources (T:=nat) (E:=unit)
                       gen_cat gen_cat_sound [[5]; [6]])) as H.
  destruct (run gen_cat _ _) as [[tr w]|] eqn:Hr;
    [|vm_compute in Hr; discriminate Hr].
  destruct (H _ _ _ Hr) as (_ & _ & H').
  assert (final w = true) as Hf
    by (vm_compute in Hr; injection Hr as <- <-; reflexivity).
  destruct (H' Hf) as (Hl & _ & _ & Hq).
  exact (conj Hf (conj Hl Hq)).
Defined.

Section MarkerItems.
Context {T E : Type}.
Variable pick : nat -> list gen_state -> option nat.
Hypothesis pick_sound : sound pick.
Implicit Types (w : world T E) (tr : list (event T E)) (sched : list action).
Implicit Types (sources : list (upstream T E)).




End MarkerItems.

